(** * libkern [include/htable.h]: chained hash table with a bloom prefilter

    A shallow embedding of the intrusive hash table of libkern and the
    properties of its operations.  The header depends on [jhash.h],
    [hlist.h] and [kernel.h], none of which is part of the sources at hand:
    the hash function is a parameter of the development, and the list
    primitives are modelled as stated at their definitions. *)

From Stdlib Require Import ZArith Lia Strings.Byte Strings.String.
From stdpp Require Import base list sorting.

Local Open Scope Z_scope.

(** ** Machine integers *)

(** [unsigned] is 32 bits wide, [size_t] 64 bits and [uint8_t] 8 bits; an
    assignment to a variable of such a type reduces the value. *)
Definition wrap32 (x : Z) : Z := x mod 2 ^ 32.
Definition wrap64 (x : Z) : Z := x mod 2 ^ 64.
Definition wrap8 (x : Z) : Z := x mod 2 ^ 8.

Definition INT_MAX : Z := 2 ^ 31 - 1.

(** ** Keys *)

(** A key is handed over as a pointer and a length.  The pointer is modelled
    by the bytes stored at it; [key_bytes key len] are the [len] bytes that
    [jhash] and [memcmp] read. *)
Definition key_bytes (key : list byte) (len : Z) : list byte :=
  take (Z.to_nat len) key.

(** [memcmp(a, b, n)] of the C library: zero when the first [n] bytes agree,
    otherwise the difference of the first pair of bytes that differ. *)
Fixpoint memcmp_bytes (a b : list byte) : Z :=
  match a, b with
  | [], [] => 0
  | x :: a', y :: b' =>
      if Byte.eqb x y then memcmp_bytes a' b'
      else Z.of_N (Byte.to_N x) - Z.of_N (Byte.to_N y)
  | [], _ :: _ => -1
  | _ :: _, [] => 1
  end.

Definition memcmp (a b : list byte) (n : Z) : Z :=
  memcmp_bytes (key_bytes a n) (key_bytes b n).

(** ** Entries and chains *)

(** [struct htable_entry].  The embedded [node] is the first member, so its
    address is the address of the entry: [e_node] is that address and is the
    identity of the entry.  The links of the node are represented by the
    position of the entry in the chain of its bucket. *)
Record htable_entry : Type := mk_entry {
  e_node : Z;
  e_key : list byte;
  e_len : Z;
  e_hash : Z
}.

(** Modelled from the spec: [hlist.h] is not among the sources.  A bucket is
    the chain of entries reachable from the head of the list, first one
    first. *)
Abbreviation hlist_head := (list htable_entry) (only parsing).

(** Modelled from the spec: [INIT_HLIST_HEAD] of the missing [hlist.h] makes
    the chain empty. *)
Definition INIT_HLIST_HEAD : hlist_head := [].

(** Modelled from the spec: [hlist_empty] of the missing [hlist.h]. *)
Definition hlist_empty (h : hlist_head) : bool :=
  match h with [] => true | _ :: _ => false end.

(** Modelled from the spec: [hlist_add_head] of the missing [hlist.h] is a
    head insertion; the node must not be part of a chain. *)
Definition hlist_add_head (n : htable_entry) (h : hlist_head) : hlist_head :=
  n :: h.

(** Modelled from the spec: unlinking the node at address [n] from a chain. *)
Fixpoint hlist_unlink (n : Z) (h : hlist_head) : hlist_head :=
  match h with
  | [] => []
  | e :: h' => if Z.eqb (e_node e) n then h' else e :: hlist_unlink n h'
  end.

(** Modelled from the spec: [hlist_del_init] of the missing [hlist.h] unlinks
    a node from the chain that holds it; it does not take the head of that
    chain, the node finds its neighbours by itself. *)
Definition hlist_del_init (n : Z) (bucks : list hlist_head) : list hlist_head :=
  hlist_unlink n <$> bucks.

(** ** Bloom filter *)

Definition BLOOM_BIT_LENGTH : Z := 8.

(** Modelled from the spec: [BITS_PER_BYTE] comes from the missing
    [kernel.h]; the bit vector of 256 bits takes 32 bytes. *)
Definition BITS_PER_BYTE : Z := 8.

Definition bloom_init : list Z :=
  replicate (Z.to_nat (Z.shiftl 1 BLOOM_BIT_LENGTH / BITS_PER_BYTE)) 0.

(** The macros [bloom_set_bit] and [bloom_test_bit] on a vector of bytes and
    an index into its bits.  They stand for the macros applied to an index
    that lies within the vector, which is how [bloom_set] and [bloom_test]
    apply them (an index below 256 on 32 bytes); what the C code does to
    the memory beyond the vector is not modelled, [bloom_set_bit] leaves
    the vector as it is there and [bloom_test_bit] reads 0. *)
Definition bloom_set_bit (bits : list Z) (idx : Z) : list Z :=
  alter (fun b => wrap8 (Z.lor b (Z.shiftl 1 (idx mod BITS_PER_BYTE))))
        (Z.to_nat (idx / BITS_PER_BYTE)) bits.

Definition bloom_test_bit (bits : list Z) (idx : Z) : Z :=
  Z.land (default 0 (bits !! Z.to_nat (idx / BITS_PER_BYTE)))
         (Z.shiftl 1 (idx mod BITS_PER_BYTE)).

Definition bloom_mask : Z := wrap32 (Z.shiftl 1 BLOOM_BIT_LENGTH - 1).

(** The macros [bloom_set] and [bloom_test] paste their [hash] argument in
    front of [& 0xff] without parentheses.  The functions stand for the
    macros applied to a variable that holds the hash, which is how
    [htable_add] and [htable_find] apply them; an argument that is an
    expression with an operator of lower precedence than [&] is outside
    of them. *)
Definition bloom_set (bitvect : list Z) (hash : Z) : list Z :=
  bloom_set_bit bitvect (Z.land hash bloom_mask).

Definition bloom_test (bitvect : list Z) (hash : Z) : Z :=
  bloom_test_bit bitvect (Z.land hash bloom_mask).

(** ** The table *)

Definition HASH_NUM_BUCKETS : Z := 16.
Definition HASH_BUCKET_THRESH : Z := 10.

Record htable : Type := mk_htable {
  ht_bucks : list hlist_head;
  ht_size : Z;
  ht_count : Z;
  ht_bitvect : list Z
}.

Definition htable_which_bucket (table : htable) (hash : Z) : Z :=
  Z.land hash (wrap64 (ht_size table - 1)).

Definition INIT_HTABLE_ENTRY (entry : htable_entry) (key : list byte) (len : Z)
  : htable_entry :=
  {| e_node := e_node entry; e_key := key; e_len := len; e_hash := e_hash entry |}.

(** The table argument is a pointer: [None] is the null pointer, [Some old]
    a pointer to a structure of any content.  The two allocations are taken
    to succeed, so that the assertions on them pass.  The result is the
    returned integer and the structure behind the pointer. *)
Definition htable_init (table : option htable) : Z * option htable :=
  match table with
  | None => (-1, None)
  | Some _ =>
      let size := HASH_NUM_BUCKETS in
      (0, Some {| ht_bucks := replicate (Z.to_nat size) INIT_HLIST_HEAD;
                  ht_size := size;
                  ht_count := 0;
                  ht_bitvect := bloom_init |})
  end.

(** As [htable_init], with the size hint [n].  The loop that empties the
    buckets counts with an [int] and the size of the allocation is
    [sizeof(struct hlist_head) * size] in [size_t]: the function stands for
    the code for hints from 0 to [INT_MAX], where neither overflows; what
    the code does for a larger hint with a table that is not null is
    undefined and not modelled.  The null check comes before all that. *)
Definition htable_init_n (table : option htable) (n : Z) : Z * option htable :=
  match table with
  | None => (-1, None)
  | Some _ =>
      let size := if 0 <? n then n else HASH_BUCKET_THRESH in
      (0, Some {| ht_bucks := replicate (Z.to_nat size) INIT_HLIST_HEAD;
                  ht_size := size;
                  ht_count := 0;
                  ht_bitvect := bloom_init |})
  end.

(** The body of the loop in [htable_find]: the first entry of the chain with
    the length and the bytes of the key. *)
Definition key_match (key : list byte) (len : Z) (e : htable_entry) : bool :=
  (e_len e =? len) && (memcmp (e_key e) key len =? 0).

Fixpoint hlist_scan (key : list byte) (len : Z) (h : hlist_head)
  : option htable_entry :=
  match h with
  | [] => None
  | e :: h' => if key_match key len e then Some e else hlist_scan key len h'
  end.

(** The chain of bucket [buck]. *)
Definition bucket (bucks : list hlist_head) (buck : Z) : hlist_head :=
  default [] (bucks !! Z.to_nat buck).

(** The entries that [htable_for_each] assigns to [pos], in order: [i] runs
    over the buckets, [pos] along the chain of bucket [i]. *)
Fixpoint for_each_from (bucks : list hlist_head) (i : Z) (n : nat)
  : list htable_entry :=
  match n with
  | O => []
  | S n' => bucket bucks i ++ for_each_from bucks (i + 1) n'
  end.

Definition htable_for_each (table : htable) : list htable_entry :=
  for_each_from (ht_bucks table) 0 (Z.to_nat (ht_size table)).

(** All entries linked into the table, bucket after bucket. *)
Definition linked (table : htable) : list htable_entry :=
  concat (ht_bucks table).

Definition is_linked (table : htable) (n : Z) : bool :=
  existsb (fun e => e_node e =? n) (linked table).

(** Whether some linked entry has the key. *)
Definition key_present (table : htable) (key : list byte) (len : Z) : bool :=
  existsb (key_match key len) (linked table).

(** ** Calls and their contracts *)

(** A key buffer holds the [len] bytes that are read from it. *)
Definition valid_key (key : list byte) (len : Z) : bool :=
  (0 <=? len) && (len <=? Z.of_nat (length key)).

(** An entry handed to [htable_add] is a non-null address and, as the list
    primitives demand, not linked. *)
Definition valid_entry (table : htable) (entry : htable_entry) : bool :=
  (0 <? e_node entry) && (e_node entry <? 2 ^ 64)
  && negb (is_linked table (e_node entry)).

Inductive op : Type :=
  | OpAdd (entry : htable_entry) (key : list byte) (len : Z)
  | OpFind (key : list byte) (len : Z)
  | OpDelKey (key : list byte) (len : Z)
  | OpDelEntry (entry : htable_entry).

Inductive ctor : Type :=
  | CtorInit
  | CtorInitN (n : Z).

(** A structure that has not been initialised yet. *)
Definition blank : htable :=
  {| ht_bucks := []; ht_size := 0; ht_count := 0; ht_bitvect := [] |}.

(** The table made by one of the two initialisers.  The loop counter of
    [htable_init_n] is an [int], so the size hint is at most [INT_MAX]. *)
Definition construct (c : ctor) : option htable :=
  match c with
  | CtorInit => snd (htable_init (Some blank))
  | CtorInitN n =>
      if (0 <=? n) && (n <=? INT_MAX) then snd (htable_init_n (Some blank) n)
      else None
  end.

Definition is_add_of (n : Z) (o : op) : bool :=
  match o with
  | OpAdd entry _ _ => e_node entry =? n
  | _ => false
  end.

(** The position, in a sequence of calls, of the last [htable_add] of the
    entry at address [n]. *)
Fixpoint last_add (ops : list op) (n : Z) : option nat :=
  match ops with
  | [] => None
  | o :: rest =>
      match last_add rest n with
      | Some j => Some (S j)
      | None => if is_add_of n o then Some O else None
      end
  end.

(** [later ops e e']: the last insertion of [e] came after that of [e']. *)
Definition later (ops : list op) (e e' : htable_entry) : Prop :=
  exists i j : nat,
    last_add ops (e_node e) = Some i /\ last_add ops (e_node e') = Some j
    /\ (j < i)%nat.

(** Modelled from the spec: [jhash.h] is not among the sources; any 32-bit
    mixing hash of the bytes fits, such as the one-at-a-time hash of Jenkins.
    It serves as the hash function of the examples. *)
Definition oaat_step (h : Z) (b : byte) : Z :=
  let h := wrap32 (h + Z.of_N (Byte.to_N b)) in
  let h := wrap32 (h + Z.shiftl h 10) in
  Z.lxor h (Z.shiftr h 6).

(** Modelled from the spec: the one-at-a-time hash of the bytes, started from
    [initval], in the place of [jhash] of the missing [jhash.h]. *)
Definition sample_jhash (key : list byte) (len initval : Z) : Z :=
  let h := fold_left oaat_step key (wrap32 initval) in
  let h := wrap32 (h + Z.shiftl h 3) in
  let h := Z.lxor h (Z.shiftr h 11) in
  wrap32 (h + Z.shiftl h 15).

(** ** Tables and keys of the examples *)

Definition key_dup : list byte := list_byte_of_string "dup".
Definition key_x : list byte := list_byte_of_string "x".
Definition key_z : list byte := list_byte_of_string "z".

(** A zeroed entry at address [n]. *)
Definition entry_at (n : Z) : htable_entry :=
  {| e_node := n; e_key := []; e_len := 0; e_hash := 0 |}.

Definition demo_ops : list op :=
  [ OpAdd (entry_at 4096) key_dup 3;
    OpAdd (entry_at 8192) key_dup 3;
    OpAdd (entry_at 12288) key_x 1;
    OpDelKey key_x 1 ].

(** The table that [htable_init] and [demo_ops] make with [sample_jhash]:
    the two entries of key "dup" are in bucket 10. *)
Definition demo_table : htable :=
  {| ht_bucks :=
       replicate 10 [] ++
       [[ {| e_node := 8192; e_key := key_dup; e_len := 3; e_hash := 0 |};
          {| e_node := 4096; e_key := key_dup; e_len := 3; e_hash := 0 |} ]]
       ++ replicate 5 [];
     ht_size := 16;
     ht_count := 2;
     ht_bitvect := replicate 7 0 ++ [4] ++ replicate 20 0 ++ [32]
                   ++ replicate 3 0 |}.

(** ** Traversal with removal *)

(** Modelled from the spec: the [next] link of the node at address [n] in a
    chain of the missing [hlist.h], that is the entry after it. *)
Fixpoint chain_next (n : Z) (h : hlist_head) : option htable_entry :=
  match h with
  | [] => None
  | e :: h' => if e_node e =? n then head h' else chain_next n h'
  end.

(** Modelled from the spec: [pos->node.next] read in the table: the entry
    after [pos] in the chain that holds it, and null when [pos] is the last
    of its chain or, after [hlist_del_init], in no chain. *)
Fixpoint node_next (bucks : list hlist_head) (pos : htable_entry)
  : option htable_entry :=
  match bucks with
  | [] => None
  | h :: rest =>
      if existsb (fun e => e_node e =? e_node pos) h
      then chain_next (e_node pos) h
      else node_next rest pos
  end.

(** The inner loop of [htable_for_each_safe]: [n] is read before the body
    runs on [pos], and [pos] becomes [n] after it.  The body is a function
    on the table; it receives the entry as it was when its address was read.
    The result is the list of the entries the body ran on and the table at
    the end, and [None] when [fuel] steps do not reach the end. *)
Fixpoint safe_chain (fuel : nat) (body : htable -> htable_entry -> htable)
    (pos : option htable_entry) (table : htable)
  : option (list htable_entry * htable) :=
  match pos with
  | None => Some ([], table)
  | Some p =>
      match fuel with
      | O => None
      | S fuel' =>
          let n := node_next (ht_bucks table) p in
          let table' := body table p in
          match safe_chain fuel' body n table' with
          | Some (visited, table'') => Some (p :: visited, table'')
          | None => None
          end
      end
  end.

(** The outer loop of [htable_for_each_safe], from bucket [i] on; the
    condition [i < table->size] is read at every round. *)
Fixpoint safe_buckets (rounds fuel : nat)
    (body : htable -> htable_entry -> htable) (i : Z) (table : htable)
  : option (list htable_entry * htable) :=
  match rounds with
  | O => None
  | S rounds' =>
      if i <? ht_size table then
        match safe_chain fuel body (head (bucket (ht_bucks table) i)) table
        with
        | Some (visited, table') =>
            match safe_buckets rounds' fuel body (i + 1) table' with
            | Some (visited', table'') => Some (visited ++ visited', table'')
            | None => None
            end
        | None => None
        end
      else Some ([], table)
  end.

Definition htable_for_each_safe (fuel : nat)
    (body : htable -> htable_entry -> htable) (table : htable)
  : option (list htable_entry * htable) :=
  safe_buckets fuel fuel body 0 table.

(** The keys and lengths of the calls of [htable_add] in a sequence. *)
Fixpoint added_keys (ops : list op) : list (list byte * Z) :=
  match ops with
  | [] => []
  | OpAdd _ key len :: rest => (key, len) :: added_keys rest
  | _ :: rest => added_keys rest
  end.

Section Htable.

(** [jhash(key, length, initval)] of the missing [jhash.h], applied to the
    bytes it reads. *)
Variable jhash : list byte -> Z -> Z -> Z.

(** The value of [unsigned hash = jhash(key, len, 0)]. *)
Definition key_hash (key : list byte) (len : Z) : Z :=
  wrap32 (jhash (key_bytes key len) len 0).

Definition htable_add (table : htable) (entry : htable_entry)
    (key : list byte) (len : Z) : htable :=
  let entry := INIT_HTABLE_ENTRY entry key len in
  let hash := key_hash key len in
  let buck := wrap32 (htable_which_bucket table hash) in
  {| ht_bucks := alter (hlist_add_head entry) (Z.to_nat buck) (ht_bucks table);
     ht_size := ht_size table;
     ht_count := wrap64 (ht_count table + 1);
     ht_bitvect := bloom_set (ht_bitvect table) hash |}.

Definition htable_find (h : htable) (key : list byte) (len : Z)
  : option htable_entry :=
  let hash := key_hash key len in
  let buck := wrap32 (htable_which_bucket h hash) in
  if negb (bloom_test (ht_bitvect h) hash =? 0) then
    if negb (hlist_empty (bucket (ht_bucks h) buck)) then
      hlist_scan key len (bucket (ht_bucks h) buck)
    else None
  else None.

(** The result is the returned pointer and the table after the call. *)
Definition htable_del_key (table : htable) (key : list byte) (len : Z)
  : option htable_entry * htable :=
  match htable_find table key len with
  | Some entry =>
      (Some entry,
       {| ht_bucks := hlist_del_init (e_node entry) (ht_bucks table);
          ht_size := ht_size table;
          ht_count := wrap64 (ht_count table - 1);
          ht_bitvect := ht_bitvect table |})
  | None => (None, table)
  end.

Definition htable_del_entry (table : htable) (entry : htable_entry)
  : option htable_entry * htable :=
  htable_del_key table (e_key entry) (e_len entry).

(** One call, under its contract; [None] when the contract is broken. *)
Definition exec (table : htable) (o : op) : option htable :=
  match o with
  | OpAdd entry key len =>
      if valid_entry table entry && valid_key key len
      then Some (htable_add table entry key len) else None
  | OpFind key len =>
      if valid_key key len then Some table else None
  | OpDelKey key len =>
      if valid_key key len then Some (snd (htable_del_key table key len))
      else None
  | OpDelEntry entry =>
      if valid_key (e_key entry) (e_len entry)
      then Some (snd (htable_del_entry table entry)) else None
  end.

Fixpoint run (ops : list op) (table : htable) : option htable :=
  match ops with
  | [] => Some table
  | o :: rest =>
      match exec table o with
      | Some table' => run rest table'
      | None => None
      end
  end.

(** The table after an initialiser and a sequence of calls. *)
Definition history (c : ctor) (ops : list op) : option htable :=
  match construct c with
  | Some table => run ops table
  | None => None
  end.

(** The lookup in the words of the specification: a plain scan of bucket
    [hash & (size - 1)], without the bloom test. *)
Definition plain_scan (h : htable) (key : list byte) (len : Z)
  : option htable_entry :=
  hlist_scan key len
    (bucket (ht_bucks h) (Z.land (key_hash key len) (ht_size h - 1))).

(** The invariant of a table in use. *)
Record table_ok (t : htable) : Prop := mk_table_ok {
  ok_size : 1 <= ht_size t <= INT_MAX;
  ok_bucks : length (ht_bucks t) = Z.to_nat (ht_size t);
  ok_bitvect : length (ht_bitvect t) = 32%nat;
  ok_nodup : NoDup (e_node <$> linked t);
  ok_addr : forall e, e ∈ linked t -> 0 < e_node e < 2 ^ 64;
  ok_count : ht_count t = Z.of_nat (length (linked t));
  ok_place : forall (i : nat) chain e,
    ht_bucks t !! i = Some chain -> e ∈ chain ->
    Z.of_nat i = htable_which_bucket t (key_hash (e_key e) (e_len e));
  ok_bloom : forall e, e ∈ linked t ->
    bloom_test (ht_bitvect t) (key_hash (e_key e) (e_len e)) <> 0
}.

(** Every chain has its entries in the order of their insertion, the last
    one inserted first. *)
Definition chains_ordered (ops : list op) (t : htable) : Prop :=
  Forall (StronglySorted (later ops)) (ht_bucks t)
  /\ forall e, e ∈ linked t -> is_Some (last_add ops (e_node e)).

(** The body [htable_del_entry(table, pos)] of a traversal. *)
Definition delete_visited (table : htable) (pos : htable_entry) : htable :=
  snd (htable_del_entry table pos).

(** ** Arithmetic of the bucket index and of the bloom bits *)

Lemma wrap32_small x : 0 <= x < 2 ^ 32 -> wrap32 x = x.
Proof. intros H. unfold wrap32. apply Z.mod_small. exact H. Qed.

Lemma wrap64_small x : 0 <= x < 2 ^ 64 -> wrap64 x = x.
Proof. intros H. unfold wrap64. apply Z.mod_small. exact H. Qed.

Lemma key_hash_range key len : 0 <= key_hash key len < 2 ^ 32.
Proof. unfold key_hash, wrap32. apply Z.mod_pos_bound. lia. Qed.

Lemma land_upper a b : 0 <= b -> 0 <= Z.land a b <= b.
Proof.
  intros Hb. split.
  - apply Z.land_nonneg. right. exact Hb.
  - assert (Hd : Z.ldiff (Z.land a b) b = 0).
    { apply Z.bits_inj'. intros n Hn.
      rewrite Z.ldiff_spec, Z.land_spec, Z.bits_0.
      destruct (Z.testbit a n), (Z.testbit b n); reflexivity. }
    pose proof (Z.sub_nocarry_ldiff b (Z.land a b) Hd) as Hs.
    assert (0 <= Z.ldiff b (Z.land a b)).
    { apply Z.ldiff_nonneg. left. exact Hb. }
    lia.
Qed.

Lemma which_bucket_range t hash :
  1 <= ht_size t <= INT_MAX ->
  htable_which_bucket t hash = Z.land hash (ht_size t - 1)
  /\ 0 <= htable_which_bucket t hash < ht_size t
  /\ wrap32 (htable_which_bucket t hash) = htable_which_bucket t hash.
Proof.
  intros Hs. unfold INT_MAX in Hs.
  assert (Hw : wrap64 (ht_size t - 1) = ht_size t - 1).
  { apply wrap64_small. lia. }
  unfold htable_which_bucket. rewrite Hw.
  pose proof (land_upper hash (ht_size t - 1)) as Hl.
  split; [reflexivity|]. split; [lia|].
  apply wrap32_small. lia.
Qed.

Lemma land_bit_testbit x k :
  0 <= k -> Z.land x (Z.shiftl 1 k) <> 0 <-> Z.testbit x k = true.
Proof.
  intros Hk. rewrite Z.shiftl_1_l. split.
  - intros Hne. destruct (Z.testbit x k) eqn:Hb; [reflexivity|].
    exfalso. apply Hne. apply Z.bits_inj'. intros n Hn.
    rewrite Z.land_spec, Z.bits_0, Z.pow2_bits_eqb by exact Hk.
    destruct (Z.eqb_spec k n) as [->|_].
    + rewrite Hb. reflexivity.
    + apply andb_false_r.
  - intros Hb Hz.
    assert (Ht : Z.testbit (Z.land x (2 ^ k)) k = true).
    { rewrite Z.land_spec, Hb, Z.pow2_bits_true by exact Hk. reflexivity. }
    rewrite Hz, Z.bits_0 in Ht. discriminate.
Qed.

Lemma bloom_idx_range hash :
  let idx := Z.land hash bloom_mask in
  0 <= idx mod BITS_PER_BYTE < 8 /\ (Z.to_nat (idx / BITS_PER_BYTE) < 32)%nat.
Proof.
  intros idx. unfold BITS_PER_BYTE.
  assert (Hi : 0 <= idx <= 255).
  { subst idx. change bloom_mask with 255. apply land_upper. lia. }
  split.
  - apply Z.mod_pos_bound. lia.
  - assert (0 <= idx / 8 < 32).
    { split; [apply Z.div_pos; lia | apply Z.div_lt_upper_bound; lia]. }
    lia.
Qed.

Lemma set_byte_testbit b k j :
  0 <= k < 8 -> 0 <= j < 8 ->
  Z.testbit (wrap8 (Z.lor b (Z.shiftl 1 j))) k
  = Z.testbit b k || (j =? k).
Proof.
  intros Hk Hj. unfold wrap8.
  rewrite Z.mod_pow2_bits_low by lia.
  rewrite Z.lor_spec, Z.shiftl_1_l, Z.pow2_bits_eqb by lia.
  reflexivity.
Qed.

Lemma bloom_set_length bits hash :
  length (bloom_set bits hash) = length bits.
Proof. unfold bloom_set, bloom_set_bit. apply length_alter. Qed.

(** A bit that was set is found set. *)
Lemma bloom_test_set bits hash :
  length bits = 32%nat -> bloom_test (bloom_set bits hash) hash <> 0.
Proof.
  intros Hlen. unfold bloom_test, bloom_set, bloom_test_bit, bloom_set_bit.
  destruct (bloom_idx_range hash) as [Hk Hi].
  set (idx := Z.land hash bloom_mask) in *.
  rewrite list_lookup_alter_eq.
  destruct (lookup_lt_is_Some_2 bits (Z.to_nat (idx / BITS_PER_BYTE)))
    as [b Hb]; [lia|].
  rewrite Hb. simpl.
  apply land_bit_testbit; [lia|].
  rewrite set_byte_testbit by lia.
  rewrite Z.eqb_refl. apply orb_true_r.
Qed.

(** Setting a bit clears no other bit. *)
Lemma bloom_test_mono bits hash hash' :
  bloom_test bits hash <> 0 -> bloom_test (bloom_set bits hash') hash <> 0.
Proof.
  unfold bloom_test, bloom_set, bloom_test_bit, bloom_set_bit.
  destruct (bloom_idx_range hash) as [Hk _].
  destruct (bloom_idx_range hash') as [Hk' _].
  set (idx := Z.land hash bloom_mask) in *.
  set (idx' := Z.land hash' bloom_mask) in *.
  intros Hset.
  rewrite list_lookup_alter.
  destruct (decide (Z.to_nat (idx' / BITS_PER_BYTE)
                    = Z.to_nat (idx / BITS_PER_BYTE))) as [He|Hne];
    [|exact Hset].
  rewrite He.
  destruct (bits !! Z.to_nat (idx / BITS_PER_BYTE)) as [b|] eqn:Hb;
    [|exact Hset].
  simpl in *.
  apply land_bit_testbit in Hset; [|lia].
  apply land_bit_testbit; [lia|].
  rewrite set_byte_testbit by lia.
  rewrite Hset. reflexivity.
Qed.

(** ** Keys and the scan of a chain *)

Lemma memcmp_bytes_eq a b : memcmp_bytes a b = 0 <-> a = b.
Proof.
  revert b. induction a as [|x a IH]; intros [|y b]; simpl;
    try (split; intros H; (reflexivity || discriminate || lia)).
  destruct (Byte.eqb x y) eqn:Hxy.
  - apply Byte.byte_dec_bl in Hxy. subst y. rewrite IH.
    split; intros H; [subst b; reflexivity | injection H as ->; reflexivity].
  - apply Byte.eqb_false in Hxy. split.
    + intros Hd. exfalso. apply Hxy.
      assert (Hn : Byte.to_N x = Byte.to_N y) by lia.
      pose proof (Byte.of_to_N x) as Hx. rewrite Hn, Byte.of_to_N in Hx.
      injection Hx as ->. reflexivity.
    + intros H. injection H as -> _. contradiction.
Qed.

Lemma key_match_spec key len e :
  key_match key len e = true
  <-> e_len e = len /\ key_bytes (e_key e) len = key_bytes key len.
Proof.
  unfold key_match, memcmp.
  rewrite andb_true_iff, !Z.eqb_eq, memcmp_bytes_eq. reflexivity.
Qed.

Lemma key_match_init entry key len :
  key_match key len (INIT_HTABLE_ENTRY entry key len) = true.
Proof. apply key_match_spec. simpl. split; reflexivity. Qed.

(** Entries with the same key have the same hash. *)
Lemma key_match_hash key len e :
  key_match key len e = true ->
  key_hash (e_key e) (e_len e) = key_hash key len.
Proof.
  intros [Hl Hb]%key_match_spec. unfold key_hash.
  rewrite Hl, Hb. reflexivity.
Qed.

Lemma hlist_scan_Some key len h e :
  hlist_scan key len h = Some e ->
  exists h1 h2, h = h1 ++ e :: h2 /\ key_match key len e = true
                /\ Forall (fun x => key_match key len x = false) h1.
Proof.
  induction h as [|x h IH]; simpl; [discriminate|].
  destruct (key_match key len x) eqn:Hx.
  - intros [= ->]. exists [], h. split; [reflexivity|]. split; [exact Hx|].
    constructor.
  - intros Hs. destruct (IH Hs) as (h1 & h2 & -> & Hm & Hf).
    exists (x :: h1), h2. split; [reflexivity|]. split; [exact Hm|].
    constructor; assumption.
Qed.

Lemma hlist_scan_None key len h :
  hlist_scan key len h = None
  <-> Forall (fun x => key_match key len x = false) h.
Proof.
  induction h as [|x h IH]; simpl.
  - split; [constructor | reflexivity].
  - destruct (key_match key len x) eqn:Hx.
    + split; [discriminate|]. intros Hf. inversion Hf; congruence.
    + rewrite IH. split; [intros Hf; constructor; assumption|].
      intros Hf. inversion Hf; assumption.
Qed.

Lemma hlist_scan_elem key len h e :
  hlist_scan key len h = Some e -> e ∈ h /\ key_match key len e = true.
Proof.
  intros (h1 & h2 & -> & Hm & _)%hlist_scan_Some. split; [|exact Hm].
  apply elem_of_app. right. apply list_elem_of_here.
Qed.

(** ** Chains and the list of all linked entries *)

Lemma bucket_lookup (bucks : list hlist_head) (i : nat) chain :
  bucks !! i = Some chain -> bucket bucks (Z.of_nat i) = chain.
Proof. intros H. unfold bucket. rewrite Nat2Z.id, H. reflexivity. Qed.

Lemma elem_of_concat (x : htable_entry) (ls : list hlist_head) :
  x ∈ concat ls <-> exists l, x ∈ l /\ l ∈ ls.
Proof.
  induction ls as [|c ls IH]; simpl.
  - split; [intros H; inversion H | intros (l & _ & H); inversion H].
  - rewrite elem_of_app, IH. split.
    + intros [H|(l & Hx & Hl)].
      * exists c. split; [exact H | apply list_elem_of_here].
      * exists l. split; [exact Hx | apply list_elem_of_further; exact Hl].
    + intros (l & Hx & Hl). apply elem_of_cons in Hl as [->|Hl].
      * left. exact Hx.
      * right. exists l. split; assumption.
Qed.

Lemma elem_of_linked t e :
  e ∈ linked t <-> exists (i : nat) chain,
    ht_bucks t !! i = Some chain /\ e ∈ chain.
Proof.
  unfold linked. rewrite elem_of_concat. split.
  - intros (chain & He & Hc). apply list_elem_of_lookup in Hc as [i Hi].
    exists i, chain. split; assumption.
  - intros (i & chain & Hi & He). exists chain. split; [exact He|].
    apply list_elem_of_lookup. exists i. exact Hi.
Qed.

Lemma is_linked_spec t n :
  is_linked t n = true <-> n ∈ e_node <$> linked t.
Proof.
  unfold is_linked. rewrite existsb_exists, list_elem_of_fmap. split.
  - intros (e & He & Hn). exists e. apply Z.eqb_eq in Hn.
    split; [symmetry; exact Hn | apply list_elem_of_In; exact He].
  - intros (e & Hn & He). exists e.
    split; [apply list_elem_of_In; exact He | apply Z.eqb_eq; congruence].
Qed.

Lemma key_present_spec t key len :
  key_present t key len = false
  <-> forall e, e ∈ linked t -> key_match key len e = false.
Proof.
  unfold key_present. split.
  - intros Hx e He. destruct (key_match key len e) eqn:Hm; [|reflexivity].
    assert (Ht : existsb (key_match key len) (linked t) = true).
    { apply existsb_exists. exists e.
      split; [apply list_elem_of_In; exact He | exact Hm]. }
    congruence.
  - intros Hall. destruct (existsb _ _) eqn:Hx; [|reflexivity].
    apply existsb_exists in Hx as (e & He & Hm).
    apply list_elem_of_In in He. rewrite (Hall e He) in Hm. discriminate.
Qed.

Lemma concat_add_head (e : htable_entry) (bucks : list hlist_head) i chain :
  bucks !! i = Some chain ->
  concat (alter (hlist_add_head e) i bucks) ≡ₚ e :: concat bucks.
Proof.
  revert i. induction bucks as [|c bucks IH]; intros [|i] Hi;
    simpl in *; try discriminate.
  - reflexivity.
  - rewrite (IH i Hi). symmetry. apply Permutation_middle.
Qed.

Lemma for_each_from_concat (pre l : list hlist_head) :
  for_each_from (pre ++ l) (Z.of_nat (length pre)) (length l) = concat l.
Proof.
  revert pre. induction l as [|c l IH]; intros pre; simpl; [reflexivity|].
  rewrite (bucket_lookup _ _ c).
  - f_equal. specialize (IH (pre ++ [c])).
    rewrite <- app_assoc in IH. simpl in IH.
    rewrite length_app in IH. simpl in IH.
    replace (Z.of_nat (length pre) + 1)
      with (Z.of_nat (length pre + 1)) by lia.
    exact IH.
  - rewrite lookup_app_r by lia. rewrite Nat.sub_diag. reflexivity.
Qed.

(** The traversal yields the chains of all buckets, one after the other. *)
Lemma htable_for_each_linked t :
  length (ht_bucks t) = Z.to_nat (ht_size t) ->
  htable_for_each t = linked t.
Proof.
  intros Hl. unfold htable_for_each, linked. rewrite <- Hl.
  apply (for_each_from_concat [] (ht_bucks t)).
Qed.

(** ** Unlinking a node *)

Lemma filter_node_absent n (h : hlist_head) :
  n ∉ e_node <$> h -> filter (fun e => e_node e <> n) h = h.
Proof.
  induction h as [|e h IH]; intros Hn; [reflexivity|].
  rewrite fmap_cons in Hn. apply not_elem_of_cons in Hn as [Hne Hn].
  rewrite filter_cons_True by (intros Hc; apply Hne; symmetry; exact Hc).
  rewrite IH by exact Hn. reflexivity.
Qed.

(** In a chain without repeated nodes, unlinking the node at [n] leaves
    the entries at the other addresses, in their order. *)
Lemma hlist_unlink_filter n (h : hlist_head) :
  NoDup (e_node <$> h) ->
  hlist_unlink n h = filter (fun e => e_node e <> n) h.
Proof.
  induction h as [|e h IH]; intros Hnd; simpl; [reflexivity|].
  rewrite fmap_cons in Hnd. apply NoDup_cons in Hnd as [Hnot Hnd].
  destruct (Z.eqb_spec (e_node e) n) as [Heq|Hne].
  - rewrite filter_cons_False by (intros Hc; apply Hc; exact Heq).
    subst n. symmetry. apply filter_node_absent. exact Hnot.
  - rewrite filter_cons_True by exact Hne.
    rewrite IH by exact Hnd. reflexivity.
Qed.

Lemma concat_filter_node n (bucks : list hlist_head) :
  concat (filter (fun e => e_node e <> n) <$> bucks)
  = filter (fun e => e_node e <> n) (concat bucks).
Proof.
  induction bucks as [|c bucks IH]; simpl; [reflexivity|].
  rewrite filter_app, <- IH. reflexivity.
Qed.

Lemma hlist_del_init_filter n (bucks : list hlist_head) :
  NoDup (e_node <$> concat bucks) ->
  hlist_del_init n bucks = filter (fun e => e_node e <> n) <$> bucks.
Proof.
  unfold hlist_del_init.
  induction bucks as [|c bucks IH]; intros Hnd; [reflexivity|].
  simpl in Hnd. rewrite fmap_app in Hnd.
  apply NoDup_app in Hnd as (Hc & _ & Hrest).
  rewrite !fmap_cons, IH by exact Hrest.
  rewrite hlist_unlink_filter by exact Hc. reflexivity.
Qed.

Lemma length_filter_node (l : list htable_entry) e :
  NoDup (e_node <$> l) -> e ∈ l ->
  S (length (filter (fun x => e_node x <> e_node e) l)) = length l.
Proof.
  induction l as [|x l IH]; intros Hnd He; [inversion He|].
  rewrite fmap_cons in Hnd. apply NoDup_cons in Hnd as [Hnot Hnd].
  destruct (decide (e_node x = e_node e)) as [Heq|Hne].
  - rewrite filter_cons_False by (intros Hc; apply Hc; exact Heq).
    rewrite <- Heq, filter_node_absent by exact Hnot. reflexivity.
  - rewrite filter_cons_True by exact Hne. simpl. f_equal.
    apply IH; [exact Hnd|].
    apply elem_of_cons in He as [->|He]; [contradiction | exact He].
Qed.

(** Distinct addresses below [M] are fewer than [M]. *)
Lemma nodup_bounded (l : list Z) (M : Z) :
  1 < M -> NoDup l -> (forall x, x ∈ l -> 0 < x < M) ->
  Z.of_nat (length l) < M.
Proof.
  intros HM Hnd Hr.
  assert (Hsub : l ⊆+ seqZ 1 (M - 1)).
  { apply NoDup_submseteq; [exact Hnd|]. intros x Hx.
    apply elem_of_seqZ. specialize (Hr x Hx). lia. }
  apply submseteq_length in Hsub. rewrite length_seqZ in Hsub. lia.
Qed.

(** ** Lookup *)

Lemma htable_find_unfold t key len :
  1 <= ht_size t <= INT_MAX ->
  htable_find t key len
  = if negb (bloom_test (ht_bitvect t) (key_hash key len) =? 0)
    then plain_scan t key len else None.
Proof.
  intros Hs. unfold htable_find, plain_scan.
  destruct (which_bucket_range t (key_hash key len) Hs) as (Hwb & _ & Hw).
  rewrite Hw, Hwb.
  destruct (negb _); [|reflexivity].
  destruct (bucket _ _); reflexivity.
Qed.

Lemma bucket_elem (bucks : list hlist_head) buck e :
  e ∈ bucket bucks buck ->
  exists chain, bucks !! Z.to_nat buck = Some chain /\ e ∈ chain.
Proof.
  unfold bucket. destruct (bucks !! Z.to_nat buck) as [chain|]; simpl.
  - intros He. exists chain. split; [reflexivity | exact He].
  - intros He. inversion He.
Qed.

(** What [htable_find] returns is linked and has the key. *)
Lemma htable_find_Some t key len e :
  htable_find t key len = Some e ->
  e ∈ linked t /\ key_match key len e = true.
Proof.
  unfold htable_find.
  destruct (negb (_ =? 0)); [|discriminate].
  destruct (negb (hlist_empty _)); [|discriminate].
  intros [He Hm]%hlist_scan_elem. split; [|exact Hm].
  apply bucket_elem in He as (chain & Hc & He).
  apply elem_of_linked. eexists _, chain. split; eassumption.
Qed.

(** A linked entry with the key lies in the bucket that is scanned. *)
Lemma key_match_bucket t key len e :
  table_ok t -> e ∈ linked t -> key_match key len e = true ->
  e ∈ bucket (ht_bucks t) (Z.land (key_hash key len) (ht_size t - 1)).
Proof.
  intros Hok He Hm.
  apply elem_of_linked in He as (i & chain & Hi & He).
  pose proof (ok_place t Hok i chain e Hi He) as Hp.
  rewrite (key_match_hash _ _ _ Hm) in Hp.
  destruct (which_bucket_range t (key_hash key len) (ok_size t Hok))
    as (Hwb & _ & _).
  rewrite <- Hwb, <- Hp, (bucket_lookup _ _ _ Hi). exact He.
Qed.

(** ** The invariant holds after every call *)

Lemma table_ok_construct c t : construct c = Some t -> table_ok t.
Proof.
  assert (Hgen : forall size, 1 <= size <= INT_MAX ->
    table_ok {| ht_bucks := replicate (Z.to_nat size) INIT_HLIST_HEAD;
                ht_size := size; ht_count := 0; ht_bitvect := bloom_init |}).
  { intros size Hs.
    assert (Hl : concat (replicate (Z.to_nat size) INIT_HLIST_HEAD) = []).
    { induction (Z.to_nat size) as [|n IH]; [reflexivity | exact IH]. }
    constructor; unfold linked; simpl; try rewrite Hl.
    - exact Hs.
    - apply length_replicate.
    - reflexivity.
    - constructor.
    - intros e He. inversion He.
    - reflexivity.
    - intros i chain e [-> _]%lookup_replicate He. inversion He.
    - intros e He. inversion He. }
  destruct c as [|n]; unfold construct, htable_init, htable_init_n;
    cbn [snd].
  - intros [= <-]. apply (Hgen HASH_NUM_BUCKETS).
    unfold HASH_NUM_BUCKETS, INT_MAX. lia.
  - destruct (Z.leb_spec 0 n); cbn [andb]; [|discriminate].
    destruct (Z.leb_spec n INT_MAX); [|discriminate].
    intros [= <-]. apply Hgen.
    destruct (Z.ltb_spec 0 n); unfold HASH_BUCKET_THRESH, INT_MAX in *; lia.
Qed.

Lemma valid_entry_spec t entry :
  valid_entry t entry = true
  <-> 0 < e_node entry < 2 ^ 64 /\ e_node entry ∉ e_node <$> linked t.
Proof.
  unfold valid_entry.
  rewrite !andb_true_iff, negb_true_iff, !Z.ltb_lt, <- is_linked_spec.
  destruct (is_linked t (e_node entry)); intuition congruence.
Qed.

(** The buckets after an insertion: the entry is put at the head of the
    chain of its bucket. *)
Lemma htable_add_bucks t entry key len :
  table_ok t ->
  exists (i : nat) chain,
    Z.of_nat i = htable_which_bucket t (key_hash key len)
    /\ ht_bucks t !! i = Some chain
    /\ ht_bucks (htable_add t entry key len)
       = alter (hlist_add_head (INIT_HTABLE_ENTRY entry key len)) i
           (ht_bucks t).
Proof.
  intros Hok.
  destruct (which_bucket_range t (key_hash key len) (ok_size t Hok))
    as (_ & Hr & Hw).
  set (i := Z.to_nat (htable_which_bucket t (key_hash key len))).
  assert (Hi : (i < length (ht_bucks t))%nat).
  { rewrite (ok_bucks t Hok). subst i. lia. }
  destruct (lookup_lt_is_Some_2 _ _ Hi) as [chain Hchain].
  exists i, chain. split; [subst i; lia|]. split; [exact Hchain|].
  unfold htable_add. simpl. rewrite Hw. reflexivity.
Qed.

Lemma htable_add_linked t entry key len :
  table_ok t ->
  linked (htable_add t entry key len)
  ≡ₚ INIT_HTABLE_ENTRY entry key len :: linked t.
Proof.
  intros Hok.
  destruct (htable_add_bucks t entry key len Hok) as (i & chain & _ & Hc & Hb).
  unfold linked. rewrite Hb. eapply concat_add_head. exact Hc.
Qed.

Lemma table_ok_add t entry key len :
  table_ok t -> valid_entry t entry = true ->
  table_ok (htable_add t entry key len).
Proof.
  intros Hok [Haddr Hfresh]%valid_entry_spec.
  pose proof (htable_add_linked t entry key len Hok) as Hperm.
  destruct (htable_add_bucks t entry key len Hok)
    as (i & chain & Hi & Hc & Hb).
  set (t' := htable_add t entry key len) in *.
  set (e' := INIT_HTABLE_ENTRY entry key len) in *.
  assert (Hnd : NoDup (e_node <$> linked t')).
  { rewrite Hperm, fmap_cons. apply NoDup_cons.
    split; [exact Hfresh | exact (ok_nodup t Hok)]. }
  assert (Hrange : forall e, e ∈ linked t' -> 0 < e_node e < 2 ^ 64).
  { intros e He. rewrite Hperm in He.
    apply elem_of_cons in He as [->|He]; [exact Haddr|].
    exact (ok_addr t Hok e He). }
  constructor.
  - exact (ok_size t Hok).
  - rewrite Hb, length_alter. exact (ok_bucks t Hok).
  - subst t'. simpl. rewrite bloom_set_length. exact (ok_bitvect t Hok).
  - exact Hnd.
  - exact Hrange.
  - assert (Hlt : Z.of_nat (length (e_node <$> linked t')) < 2 ^ 64).
    { apply nodup_bounded; [lia | exact Hnd |].
      intros x (e & -> & He)%list_elem_of_fmap. exact (Hrange e He). }
    rewrite length_fmap in Hlt. revert Hlt. rewrite Hperm. simpl length.
    intros Hlt. subst t'. simpl ht_count. rewrite (ok_count t Hok).
    rewrite wrap64_small by lia. lia.
  - intros j chain' e Hj He. rewrite Hb in Hj.
    change (htable_which_bucket t' ?h) with (htable_which_bucket t h).
    rewrite list_lookup_alter in Hj.
    destruct (decide (i = j)) as [<-|Hne].
    + rewrite Hc in Hj. simpl in Hj. injection Hj as <-.
      apply elem_of_cons in He as [->|He]; [exact Hi|].
      exact (ok_place t Hok i chain e Hc He).
    + exact (ok_place t Hok j chain' e Hj He).
  - intros e He. rewrite Hperm in He. subst t'. simpl ht_bitvect.
    apply elem_of_cons in He as [->|He].
    + apply bloom_test_set. exact (ok_bitvect t Hok).
    + apply bloom_test_mono. exact (ok_bloom t Hok e He).
Qed.

Lemma htable_del_key_None t key len :
  htable_find t key len = None -> htable_del_key t key len = (None, t).
Proof. intros H. unfold htable_del_key. rewrite H. reflexivity. Qed.

(** A successful deletion takes the entry that [htable_find] returns out
    of its chain and leaves every other entry in place. *)
Lemma htable_del_key_Some t key len e :
  table_ok t -> htable_find t key len = Some e ->
  exists t',
    htable_del_key t key len = (Some e, t')
    /\ ht_bucks t' = filter (fun x => e_node x <> e_node e) <$> ht_bucks t
    /\ linked t' = filter (fun x => e_node x <> e_node e) (linked t)
    /\ ht_size t' = ht_size t
    /\ ht_bitvect t' = ht_bitvect t
    /\ ht_count t' = wrap64 (ht_count t - 1).
Proof.
  intros Hok Hf. unfold htable_del_key. rewrite Hf.
  eexists. split; [reflexivity|]. simpl.
  assert (Hb : hlist_del_init (e_node e) (ht_bucks t)
               = filter (fun x => e_node x <> e_node e) <$> ht_bucks t).
  { apply hlist_del_init_filter. exact (ok_nodup t Hok). }
  split; [exact Hb|]. split; [|auto].
  unfold linked. simpl. rewrite Hb. apply concat_filter_node.
Qed.

Lemma table_ok_del t key len :
  table_ok t -> table_ok (snd (htable_del_key t key len)).
Proof.
  intros Hok. destruct (htable_find t key len) as [e|] eqn:Hf.
  2:{ rewrite htable_del_key_None by exact Hf. exact Hok. }
  destruct (htable_del_key_Some t key len e Hok Hf)
    as (t' & -> & Hb & Hl & Hs & Hv & Hc).
  apply htable_find_Some in Hf as [He _]. cbn [snd].
  constructor.
  - rewrite Hs. exact (ok_size t Hok).
  - rewrite Hb, length_fmap, Hs. exact (ok_bucks t Hok).
  - rewrite Hv. exact (ok_bitvect t Hok).
  - rewrite Hl. eapply sublist_NoDup; [exact (ok_nodup t Hok)|].
    apply fmap_sublist, sublist_filter.
  - intros x Hx. rewrite Hl in Hx. apply list_elem_of_filter in Hx as [_ Hx].
    exact (ok_addr t Hok x Hx).
  - assert (Hlt : Z.of_nat (length (e_node <$> linked t)) < 2 ^ 64).
    { apply nodup_bounded; [lia | exact (ok_nodup t Hok) |].
      intros x (y & -> & Hy)%list_elem_of_fmap. exact (ok_addr t Hok y Hy). }
    rewrite length_fmap in Hlt.
    pose proof (length_filter_node (linked t) e (ok_nodup t Hok) He) as Hn.
    rewrite Hc, Hl, (ok_count t Hok). rewrite wrap64_small by lia. lia.
  - intros i chain' x Hi Hx. rewrite Hb, list_lookup_fmap in Hi.
    destruct (ht_bucks t !! i) as [chain|] eqn:Hci; [|discriminate].
    simpl in Hi. injection Hi as <-.
    apply list_elem_of_filter in Hx as [_ Hx].
    unfold htable_which_bucket. rewrite Hs.
    exact (ok_place t Hok i chain x Hci Hx).
  - intros x Hx. rewrite Hl in Hx. apply list_elem_of_filter in Hx as [_ Hx].
    rewrite Hv. exact (ok_bloom t Hok x Hx).
Qed.

Lemma table_ok_exec t o t' : table_ok t -> exec t o = Some t' -> table_ok t'.
Proof.
  intros Hok. destruct o as [entry key len|key len|key len|entry]; simpl.
  - destruct (valid_entry t entry) eqn:Hv; [|discriminate].
    destruct (valid_key key len); [|discriminate].
    intros [= <-]. apply table_ok_add; assumption.
  - destruct (valid_key key len); [|discriminate].
    intros [= <-]. exact Hok.
  - destruct (valid_key key len); [|discriminate].
    intros [= <-]. apply table_ok_del. exact Hok.
  - destruct (valid_key (e_key entry) (e_len entry)); [|discriminate].
    intros [= <-]. apply table_ok_del. exact Hok.
Qed.

Lemma table_ok_run ops t t' : table_ok t -> run ops t = Some t' -> table_ok t'.
Proof.
  revert t. induction ops as [|o ops IH]; intros t Hok; simpl.
  - intros [= <-]. exact Hok.
  - destruct (exec t o) as [t1|] eqn:He; [|discriminate].
    apply IH. eapply table_ok_exec; eassumption.
Qed.

Lemma table_ok_history c ops t : history c ops = Some t -> table_ok t.
Proof.
  unfold history. destruct (construct c) as [t0|] eqn:Hc; [|discriminate].
  apply table_ok_run. eapply table_ok_construct. exact Hc.
Qed.

Lemma run_app ops1 ops2 t :
  run (ops1 ++ ops2) t
  = match run ops1 t with Some t1 => run ops2 t1 | None => None end.
Proof.
  revert t. induction ops1 as [|o ops1 IH]; intros t; simpl; [reflexivity|].
  destruct (exec t o); [apply IH | reflexivity].
Qed.

(** ** The order of a chain *)

Lemma last_add_snoc ops o n :
  last_add (ops ++ [o]) n
  = if is_add_of n o then Some (length ops) else last_add ops n.
Proof.
  induction ops as [|a ops IH]; simpl.
  - destruct (is_add_of n o); reflexivity.
  - rewrite IH. destruct (is_add_of n o); [reflexivity|].
    destruct (last_add ops n); reflexivity.
Qed.

Lemma last_add_lt ops n i : last_add ops n = Some i -> (i < length ops)%nat.
Proof.
  revert i. induction ops as [|a ops IH]; intros i; simpl; [discriminate|].
  destruct (last_add ops n) as [j|].
  - intros [= <-]. specialize (IH j eq_refl). lia.
  - destruct (is_add_of n a); [|discriminate]. intros [= <-]. lia.
Qed.

Lemma later_snoc ops o x y :
  is_add_of (e_node x) o = false -> is_add_of (e_node y) o = false ->
  later ops x y -> later (ops ++ [o]) x y.
Proof.
  intros Hx Hy (i & j & Hi & Hj & Hlt). exists i, j.
  rewrite !last_add_snoc, Hx, Hy. auto.
Qed.

Lemma StronglySorted_weaken (R R' : htable_entry -> htable_entry -> Prop) l :
  (forall x y, x ∈ l -> y ∈ l -> R x y -> R' x y) ->
  StronglySorted R l -> StronglySorted R' l.
Proof.
  induction l as [|a l IH]; intros Himp Hs; [constructor|].
  apply StronglySorted_inv in Hs as [Hs Hf]. constructor.
  - apply IH; [|exact Hs]. intros x y Hx Hy.
    apply Himp; apply list_elem_of_further; assumption.
  - rewrite Forall_forall in Hf |- *. intros y Hy.
    apply Himp; [apply list_elem_of_here | | apply Hf; exact Hy].
    apply list_elem_of_further. exact Hy.
Qed.

Lemma StronglySorted_filter_node (R : htable_entry -> htable_entry -> Prop)
    n l :
  StronglySorted R l ->
  StronglySorted R (filter (fun e => e_node e <> n) l).
Proof.
  induction 1 as [|a l Hs IH Hf]; [constructor|].
  rewrite filter_cons. destruct (decide (e_node a <> n)); [|exact IH].
  constructor; [exact IH|].
  rewrite Forall_forall in Hf |- *. intros y [_ Hy]%list_elem_of_filter.
  apply Hf. exact Hy.
Qed.

Lemma chains_ordered_construct c t :
  construct c = Some t -> chains_ordered [] t.
Proof.
  assert (Hgen : forall n, chains_ordered []
    {| ht_bucks := replicate n INIT_HLIST_HEAD; ht_size := Z.of_nat n;
       ht_count := 0; ht_bitvect := bloom_init |} ).
  { intros n. split.
    - simpl. apply Forall_replicate. constructor.
    - intros e (i & chain & [-> _]%lookup_replicate & He)%elem_of_linked.
      inversion He. }
  assert (Hany : forall n s, chains_ordered []
    {| ht_bucks := replicate n INIT_HLIST_HEAD; ht_size := s;
       ht_count := 0; ht_bitvect := bloom_init |} ).
  { intros n s. exact (Hgen n). }
  destruct c as [|n]; unfold construct, htable_init, htable_init_n;
    cbn [snd].
  - intros [= <-]. exact (Hany 16%nat 16).
  - destruct (_ && _); [|discriminate]. intros [= <-]. apply Hany.
Qed.

Lemma history_snoc c ops o t' :
  history c (ops ++ [o]) = Some t' ->
  exists t, history c ops = Some t /\ exec t o = Some t'.
Proof.
  unfold history. destruct (construct c) as [t0|]; [|discriminate].
  rewrite run_app. destruct (run ops t0) as [t|]; [|discriminate].
  simpl. destruct (exec t o) as [t1|] eqn:He; [|discriminate].
  intros [= <-]. exists t. split; [reflexivity | exact He].
Qed.

Lemma chains_ordered_same ops o t :
  (forall n, is_add_of n o = false) ->
  chains_ordered ops t -> chains_ordered (ops ++ [o]) t.
Proof.
  intros Hno [Hs Hl]. split.
  - eapply Forall_impl; [exact Hs|]. intros chain.
    apply StronglySorted_weaken. intros x y _ _.
    apply later_snoc; apply Hno.
  - intros e He. rewrite last_add_snoc, Hno. apply Hl. exact He.
Qed.

Lemma chains_ordered_del ops t key len :
  table_ok t -> chains_ordered ops t ->
  chains_ordered ops (snd (htable_del_key t key len)).
Proof.
  intros Hok [Hs Hl]. destruct (htable_find t key len) as [e|] eqn:Hf.
  2:{ rewrite htable_del_key_None by exact Hf. split; assumption. }
  destruct (htable_del_key_Some t key len e Hok Hf)
    as (t' & -> & Hb & Hlk & _). cbn [snd]. split.
  - rewrite Hb. apply Forall_fmap. eapply Forall_impl; [exact Hs|].
    intros chain. apply StronglySorted_filter_node.
  - intros x Hx. rewrite Hlk in Hx.
    apply list_elem_of_filter in Hx as [_ Hx]. apply Hl. exact Hx.
Qed.

Lemma chains_ordered_add ops t entry key len :
  table_ok t -> valid_entry t entry = true -> chains_ordered ops t ->
  chains_ordered (ops ++ [OpAdd entry key len]) (htable_add t entry key len).
Proof.
  intros Hok [_ Hfresh]%valid_entry_spec [Hs Hl].
  pose proof (htable_add_linked t entry key len Hok) as Hperm.
  destruct (htable_add_bucks t entry key len Hok)
    as (i & chain & _ & Hc & Hb).
  set (o := OpAdd entry key len).
  set (e' := INIT_HTABLE_ENTRY entry key len) in *.
  assert (Hold : forall x, x ∈ linked t -> is_add_of (e_node x) o = false).
  { intros x Hx. simpl. apply Z.eqb_neq. intros Heq. apply Hfresh.
    rewrite Heq. apply list_elem_of_fmap. exists x. split; [reflexivity|].
    exact Hx. }
  assert (Hnew : last_add (ops ++ [o]) (e_node e') = Some (length ops)).
  { rewrite last_add_snoc. simpl. rewrite Z.eqb_refl. reflexivity. }
  assert (Hkeep : forall j chain', ht_bucks t !! j = Some chain' ->
            StronglySorted (later (ops ++ [o])) chain').
  { intros j chain' Hj. rewrite Forall_lookup in Hs.
    eapply StronglySorted_weaken; [|exact (Hs j chain' Hj)].
    intros x y Hx Hy. apply later_snoc; apply Hold; apply elem_of_linked;
      exists j, chain'; split; assumption. }
  split.
  - apply Forall_lookup. intros j chain' Hj.
    rewrite Hb, list_lookup_alter in Hj.
    destruct (decide (i = j)) as [<-|Hne]; [|exact (Hkeep j chain' Hj)].
    rewrite Hc in Hj. simpl in Hj. injection Hj as <-.
    constructor; [exact (Hkeep i chain Hc)|].
    apply Forall_forall. intros y Hy.
    assert (Hyl : y ∈ linked t).
    { apply elem_of_linked. exists i, chain. split; assumption. }
    destruct (Hl y Hyl) as [j Hj].
    exists (length ops), j. split; [exact Hnew|]. split.
    + rewrite last_add_snoc, (Hold y Hyl). exact Hj.
    + apply last_add_lt in Hj. exact Hj.
  - intros x Hx. rewrite Hperm in Hx.
    apply elem_of_cons in Hx as [->|Hx].
    + rewrite Hnew. eexists. reflexivity.
    + rewrite last_add_snoc, (Hold x Hx). apply Hl. exact Hx.
Qed.

Lemma chains_ordered_history c ops t :
  history c ops = Some t -> chains_ordered ops t.
Proof.
  revert t. induction ops as [|o ops IH] using rev_ind; intros t' Hh.
  - unfold history in Hh. destruct (construct c) as [t0|] eqn:Hc;
      [|discriminate].
    injection Hh as <-. eapply chains_ordered_construct. exact Hc.
  - apply history_snoc in Hh as (t & Hh & He).
    pose proof (table_ok_history c ops t Hh) as Hok.
    specialize (IH t Hh).
    destruct o as [entry key len|key len|key len|entry]; simpl in He.
    + destruct (valid_entry t entry) eqn:Hv; [|discriminate].
      destruct (valid_key key len); [|discriminate].
      injection He as <-. apply chains_ordered_add; assumption.
    + destruct (valid_key key len); [|discriminate].
      injection He as <-. apply chains_ordered_same; [reflexivity|exact IH].
    + destruct (valid_key key len); [|discriminate].
      injection He as <-. apply chains_ordered_same; [reflexivity|].
      apply chains_ordered_del; assumption.
    + destruct (valid_key (e_key entry) (e_len entry)); [|discriminate].
      injection He as <-. apply chains_ordered_same; [reflexivity|].
      apply chains_ordered_del; assumption.
Qed.

(** ** Properties of the operations *)

(** Right after its insertion an entry is the one found under its key. *)
Lemma find_after_add t entry key len :
  table_ok t -> valid_entry t entry = true ->
  htable_find (htable_add t entry key len) key len
  = Some (INIT_HTABLE_ENTRY entry key len).
Proof.
  intros Hok Hv.
  pose proof (table_ok_add t entry key len Hok Hv) as Hok'.
  destruct (htable_add_bucks t entry key len Hok)
    as (i & chain & Hi & Hc & Hb).
  destruct (which_bucket_range t (key_hash key len) (ok_size t Hok))
    as (Hwb & _ & _).
  pose proof (htable_add_linked t entry key len Hok) as Hperm.
  set (t' := htable_add t entry key len) in *.
  set (e' := INIT_HTABLE_ENTRY entry key len) in *.
  assert (He' : e' ∈ linked t').
  { rewrite Hperm. apply list_elem_of_here. }
  rewrite htable_find_unfold by exact (ok_size t' Hok').
  pose proof (ok_bloom t' Hok' e' He') as Hbl.
  change (key_hash (e_key e') (e_len e')) with (key_hash key len) in Hbl.
  apply Z.eqb_neq in Hbl. rewrite Hbl. cbn [negb].
  unfold plain_scan.
  change (ht_size t') with (ht_size t). rewrite <- Hwb, <- Hi.
  rewrite (bucket_lookup _ i (hlist_add_head e' chain)).
  - simpl. subst e'. rewrite key_match_init. reflexivity.
  - rewrite Hb, list_lookup_alter_eq, Hc. reflexivity.
Qed.

(** Whenever a linked entry has the key, the lookup finds one. *)
Lemma find_present t key len e' :
  table_ok t -> e' ∈ linked t -> key_match key len e' = true ->
  is_Some (htable_find t key len).
Proof.
  intros Hok He' Hm.
  rewrite htable_find_unfold by exact (ok_size t Hok).
  pose proof (ok_bloom t Hok e' He') as Hbl.
  rewrite (key_match_hash _ _ _ Hm) in Hbl.
  apply Z.eqb_neq in Hbl. rewrite Hbl. simpl.
  destruct (plain_scan t key len) as [e|] eqn:Hs; [eexists; reflexivity|].
  exfalso. apply hlist_scan_None in Hs. rewrite Forall_forall in Hs.
  specialize (Hs e' (key_match_bucket t key len e' Hok He' Hm)).
  congruence.
Qed.

(** Among the linked entries with the key, the lookup returns the one that
    was inserted last. *)
Lemma find_most_recent c ops t key len e e' :
  history c ops = Some t ->
  htable_find t key len = Some e ->
  e' ∈ linked t -> key_match key len e' = true ->
  e_node e' <> e_node e -> later ops e e'.
Proof.
  intros Hh Hf He' Hm Hne.
  pose proof (table_ok_history c ops t Hh) as Hok.
  destruct (chains_ordered_history c ops t Hh) as [Hs _].
  rewrite htable_find_unfold in Hf by exact (ok_size t Hok).
  destruct (negb _); [|discriminate].
  pose proof (key_match_bucket t key len e' Hok He' Hm) as Hin.
  unfold plain_scan in Hf.
  set (chain := bucket (ht_bucks t)
                  (Z.land (key_hash key len) (ht_size t - 1))) in *.
  assert (Hsorted : StronglySorted (later ops) chain).
  { subst chain. unfold bucket.
    destruct (ht_bucks t !! _) as [ch|] eqn:Hl; simpl; [|constructor].
    rewrite Forall_lookup in Hs. exact (Hs _ ch Hl). }
  apply hlist_scan_Some in Hf as (h1 & h2 & Hsplit & _ & Hno).
  rewrite Hsplit in Hin, Hsorted.
  apply StronglySorted_app_1_r in Hsorted.
  apply StronglySorted_inv in Hsorted as [_ Hafter].
  rewrite Forall_forall in Hafter, Hno.
  apply elem_of_app in Hin as [Hin|Hin].
  - specialize (Hno e' Hin). congruence.
  - apply elem_of_cons in Hin as [->|Hin]; [contradiction|].
    exact (Hafter e' Hin).
Qed.

(** C1: after [htable_add] of an unlinked entry under a key, [htable_find]
    with that key returns this entry; and in every table made by an
    initialiser and a sequence of calls, [htable_find] returns a linked
    entry with the key, finds one whenever there is one, and every other
    linked entry with the same key was inserted before the one returned.
    This holds for every bucket count, the powers of two among them. *)
Theorem find_returns_latest_insert c ops t :
  history c ops = Some t ->
  (forall entry key len,
      valid_entry t entry = true ->
      htable_find (htable_add t entry key len) key len
      = Some (INIT_HTABLE_ENTRY entry key len))
  /\ (forall key len e,
        htable_find t key len = Some e ->
        e ∈ linked t /\ key_match key len e = true
        /\ forall e', e' ∈ linked t -> key_match key len e' = true ->
                      e_node e' <> e_node e -> later ops e e')
  /\ (forall key len e',
        e' ∈ linked t -> key_match key len e' = true ->
        is_Some (htable_find t key len)).
Proof.
  intros Hh. pose proof (table_ok_history c ops t Hh) as Hok.
  split; [|split].
  - intros entry key len Hv. apply find_after_add; assumption.
  - intros key len e Hf.
    destruct (htable_find_Some t key len e Hf) as [He Hm].
    split; [exact He|]. split; [exact Hm|].
    intros e' He' Hm' Hne. eapply find_most_recent; eassumption.
  - intros key len e' He' Hm. eapply find_present; eassumption.
Qed.

(** C2: in every table made by an initialiser and a sequence of calls,
    [htable_find] returns what the scan of bucket [hash & (size - 1)]
    without the bloom test returns; and when the bloom test of the hash
    of a key fails, no linked entry has the key. *)
Theorem bloom_gate_is_plain_scan c ops t key len :
  history c ops = Some t ->
  htable_find t key len = plain_scan t key len
  /\ (bloom_test (ht_bitvect t) (key_hash key len) = 0 ->
      key_present t key len = false).
Proof.
  intros Hh. pose proof (table_ok_history c ops t Hh) as Hok.
  assert (Habs : bloom_test (ht_bitvect t) (key_hash key len) = 0 ->
                 forall e, e ∈ linked t -> key_match key len e = false).
  { intros Hz e He. destruct (key_match key len e) eqn:Hm; [|reflexivity].
    pose proof (ok_bloom t Hok e He) as Hbl.
    rewrite (key_match_hash _ _ _ Hm) in Hbl. contradiction. }
  split.
  - rewrite htable_find_unfold by exact (ok_size t Hok).
    destruct (Z.eqb_spec (bloom_test (ht_bitvect t) (key_hash key len)) 0)
      as [Hz|Hnz]; simpl; [|reflexivity].
    destruct (plain_scan t key len) as [e|] eqn:Hs; [|reflexivity].
    exfalso. apply hlist_scan_elem in Hs as [He Hm].
    apply bucket_elem in He as (chain & Hc & He).
    assert (Hl : e ∈ linked t).
    { apply elem_of_linked. eexists _, chain. split; eassumption. }
    rewrite (Habs Hz e Hl) in Hm. discriminate.
  - intros Hz. apply key_present_spec. exact (Habs Hz).
Qed.

Lemma htable_del_key_bitvect t key len :
  ht_bitvect (snd (htable_del_key t key len)) = ht_bitvect t.
Proof. unfold htable_del_key. destruct (htable_find t key len); reflexivity. Qed.

(** No call clears a bit of the bloom vector. *)
Lemma bloom_test_exec t o t' hash :
  exec t o = Some t' ->
  bloom_test (ht_bitvect t) hash <> 0 -> bloom_test (ht_bitvect t') hash <> 0.
Proof.
  destruct o as [entry key len|key len|key len|entry]; simpl.
  - destruct (_ && _); [|discriminate]. intros [= <-] Hb.
    apply bloom_test_mono. exact Hb.
  - destruct (valid_key _ _); [|discriminate]. intros [= <-] Hb. exact Hb.
  - destruct (valid_key _ _); [|discriminate]. intros [= <-] Hb.
    rewrite htable_del_key_bitvect. exact Hb.
  - destruct (valid_key _ _); [|discriminate]. intros [= <-] Hb.
    unfold htable_del_entry. rewrite htable_del_key_bitvect. exact Hb.
Qed.

Lemma bloom_test_run ops t t' hash :
  run ops t = Some t' ->
  bloom_test (ht_bitvect t) hash <> 0 -> bloom_test (ht_bitvect t') hash <> 0.
Proof.
  revert t. induction ops as [|o ops IH]; intros t; simpl.
  - intros [= <-] Hb. exact Hb.
  - destruct (exec t o) as [t1|] eqn:He; [|discriminate].
    intros Hr Hb. apply (IH t1 Hr). eapply bloom_test_exec; eassumption.
Qed.

(** C3: once [htable_add] has been called with a key, the bloom test of
    the hash of that key succeeds in the table after any further calls,
    deletions of all entries with that hash among them. *)
Theorem bloom_bit_never_cleared c ops entry key len ops' t :
  history c (ops ++ OpAdd entry key len :: ops') = Some t ->
  bloom_test (ht_bitvect t) (key_hash key len) <> 0.
Proof.
  unfold history. destruct (construct c) as [t0|] eqn:Hc; [|discriminate].
  rewrite run_app. destruct (run ops t0) as [t1|] eqn:Hr; [|discriminate].
  simpl. destruct (valid_entry t1 entry && valid_key key len);
    [|discriminate].
  intros Hr'. apply (bloom_test_run ops' _ t _ Hr'). simpl.
  apply bloom_test_set.
  assert (Hok : table_ok t1).
  { eapply table_ok_run; [|exact Hr]. eapply table_ok_construct. exact Hc. }
  exact (ok_bitvect t1 Hok).
Qed.

Lemma htable_add_count t entry key len :
  table_ok t -> valid_entry t entry = true ->
  ht_count (htable_add t entry key len) = ht_count t + 1.
Proof.
  intros Hok Hv.
  pose proof (table_ok_add t entry key len Hok Hv) as Hok'.
  rewrite (ok_count _ Hok'), (ok_count _ Hok).
  rewrite (htable_add_linked t entry key len Hok). simpl length. lia.
Qed.

Lemma htable_del_key_count t key len e t' :
  table_ok t -> htable_del_key t key len = (Some e, t') ->
  ht_count t' = ht_count t - 1.
Proof.
  intros Hok Hd.
  pose proof (table_ok_del t key len Hok) as Hok'.
  destruct (htable_find t key len) as [e0|] eqn:Hf.
  2:{ rewrite htable_del_key_None in Hd by exact Hf. discriminate. }
  destruct (htable_del_key_Some t key len e0 Hok Hf)
    as (t1 & Hd1 & _ & Hl & _).
  rewrite Hd1 in Hok'. rewrite Hd in Hd1. injection Hd1 as <- <-.
  cbn [snd] in Hok'.
  apply htable_find_Some in Hf as [He _].
  pose proof (length_filter_node (linked t) e (ok_nodup t Hok) He) as Hn.
  rewrite (ok_count _ Hok'), (ok_count _ Hok), Hl. lia.
Qed.

(** C4: in every table made by an initialiser and a sequence of calls,
    [count] is the number of entries that the traversal of all buckets
    yields, which is the sum of the lengths of the chains; an insertion
    adds exactly one to [count], a deletion that finds its key takes
    exactly one off, and one that does not leaves it. *)
Theorem count_is_number_of_entries c ops t :
  history c ops = Some t ->
  ht_count t = Z.of_nat (length (htable_for_each t))
  /\ ht_count t = Z.of_nat (list_sum (map length (ht_bucks t)))
  /\ (forall entry key len,
        valid_entry t entry = true ->
        ht_count (htable_add t entry key len) = ht_count t + 1)
  /\ (forall key len e t',
        htable_del_key t key len = (Some e, t') ->
        ht_count t' = ht_count t - 1)
  /\ (forall key len t',
        htable_del_key t key len = (None, t') ->
        ht_count t' = ht_count t).
Proof.
  intros Hh. pose proof (table_ok_history c ops t Hh) as Hok.
  split; [|split; [|split; [|split]]].
  - rewrite (htable_for_each_linked t (ok_bucks t Hok)).
    exact (ok_count t Hok).
  - rewrite (ok_count t Hok). unfold linked. rewrite length_concat.
    reflexivity.
  - intros entry key len Hv. apply htable_add_count; assumption.
  - intros key len e t' Hd. eapply htable_del_key_count; eassumption.
  - intros key len t' Hd. unfold htable_del_key in Hd.
    destruct (htable_find t key len); [discriminate|].
    injection Hd as <-. reflexivity.
Qed.

(** C6: when no linked entry has the key, [htable_del_key] returns the
    null pointer and the table is as before: its count, its chains and
    its bloom vector. *)
Theorem del_key_of_absent_key t key len :
  key_present t key len = false ->
  htable_del_key t key len = (None, t).
Proof.
  intros Habs. apply htable_del_key_None.
  destruct (htable_find t key len) as [e|] eqn:Hf; [|reflexivity].
  apply htable_find_Some in Hf as [He Hm].
  rewrite key_present_spec in Habs. rewrite (Habs e He) in Hm. discriminate.
Qed.

(** [htable_add] writes the key and the length of the entry and leaves its
    [hash] member as it was. *)
Lemma htable_add_hash_member t entry key len :
  table_ok t -> valid_entry t entry = true ->
  exists e,
    htable_find (htable_add t entry key len) key len = Some e
    /\ e_node e = e_node entry /\ e_key e = key /\ e_len e = len
    /\ e_hash e = e_hash entry.
Proof.
  intros Hok Hv. exists (INIT_HTABLE_ENTRY entry key len).
  split; [apply find_after_add; assumption|]. repeat split.
Qed.

Lemma history_nil c t : construct c = Some t -> history c [] = Some t.
Proof. intros Hc. unfold history. rewrite Hc. reflexivity. Qed.

Lemma history_add c ops t entry key len :
  history c ops = Some t ->
  valid_entry t entry = true -> valid_key key len = true ->
  history c (ops ++ [OpAdd entry key len])
  = Some (htable_add t entry key len).
Proof.
  unfold history. destruct (construct c) as [t0|]; [|discriminate].
  intros Hr Hv Hk. rewrite run_app, Hr. simpl. rewrite Hv, Hk. reflexivity.
Qed.

Lemma for_each_from_seqZ (bucks : list hlist_head) i n :
  for_each_from bucks i n
  = concat (map (bucket bucks) (seqZ i (Z.of_nat n))).
Proof.
  revert i. induction n as [|n IH]; intros i; [reflexivity|].
  rewrite seqZ_cons by lia.
  replace (Z.pred (Z.of_nat (S n))) with (Z.of_nat n) by lia.
  simpl. rewrite IH. reflexivity.
Qed.

(** C8: in a table made by an initialiser and a sequence of calls, the
    traversal [htable_for_each] yields the chains of the buckets
    [0 .. size - 1] one after the other, that is all linked entries; it
    yields as many entries as are linked, which is [count]; no entry comes
    twice; and every chain has the entry inserted last first. *)
Theorem for_each_visits_each_entry_once c ops t :
  history c ops = Some t ->
  htable_for_each t
  = concat (map (bucket (ht_bucks t)) (seqZ 0 (ht_size t)))
  /\ htable_for_each t = linked t
  /\ length (htable_for_each t) = length (linked t)
  /\ Z.of_nat (length (htable_for_each t)) = ht_count t
  /\ NoDup (e_node <$> htable_for_each t)
  /\ (forall e, e ∈ htable_for_each t <->
        exists (i : nat) chain, ht_bucks t !! i = Some chain /\ e ∈ chain)
  /\ (forall i, StronglySorted (later ops) (bucket (ht_bucks t) i)).
Proof.
  intros Hh. pose proof (table_ok_history c ops t Hh) as Hok.
  destruct (chains_ordered_history c ops t Hh) as [Hs _].
  pose proof (htable_for_each_linked t (ok_bucks t Hok)) as Hfe.
  split; [|split; [|split; [|split; [|split; [|split]]]]].
  - unfold htable_for_each. rewrite for_each_from_seqZ.
    rewrite Z2Nat.id; [reflexivity|].
    pose proof (ok_size t Hok). lia.
  - exact Hfe.
  - rewrite Hfe. reflexivity.
  - rewrite Hfe. symmetry. exact (ok_count t Hok).
  - rewrite Hfe. exact (ok_nodup t Hok).
  - intros e. rewrite Hfe. apply elem_of_linked.
  - intros i. unfold bucket.
    destruct (ht_bucks t !! Z.to_nat i) as [chain|] eqn:Hc; simpl;
      [|constructor].
    rewrite Forall_lookup in Hs. exact (Hs _ chain Hc).
Qed.

(** C9: with a null pointer for the table, [htable_init] and
    [htable_init_n], whatever the size hint, return -1 and initialise
    nothing; with a pointer to a table they return 0, which differs from
    -1, and initialise it, [htable_init_n] for every size hint from 0 to
    [INT_MAX], the hints for which the call is defined. *)
Theorem init_of_null_table_fails :
  htable_init None = (-1, None)
  /\ (forall n, htable_init_n None n = (-1, None))
  /\ (forall old, fst (htable_init (Some old)) = 0
                  /\ is_Some (snd (htable_init (Some old))))
  /\ (forall old n,
        0 <= n <= INT_MAX ->
        fst (htable_init_n (Some old) n) = 0
        /\ snd (htable_init_n (Some old) n) = construct (CtorInitN n)
        /\ is_Some (snd (htable_init_n (Some old) n)))
  /\ -1 <> 0.
Proof.
  split; [reflexivity|]. split; [reflexivity|].
  split; [|split; [|lia]].
  - intros old. split; [reflexivity | eexists; reflexivity].
  - intros old n [Hlo Hhi]. split; [reflexivity|]. split.
    + unfold construct.
      destruct (Z.leb_spec 0 n); [|lia].
      destruct (Z.leb_spec n INT_MAX); [|lia]. reflexivity.
    + eexists. reflexivity.
Qed.

Lemma land_9_values h : In (Z.land h 9) [0; 1; 8; 9].
Proof.
  assert (Hl : Z.land h 9 = Z.land (h mod 2 ^ 4) 9).
  { rewrite <- Z.land_ones by lia. rewrite <- Z.land_assoc. reflexivity. }
  rewrite Hl. assert (Hr : 0 <= h mod 2 ^ 4 < 16) by (apply Z.mod_pos_bound; lia).
  generalize dependent (h mod 2 ^ 4). intros r _ Hr.
  assert (Hcases : r = 0 \/ r = 1 \/ r = 2 \/ r = 3 \/ r = 4 \/ r = 5
                   \/ r = 6 \/ r = 7 \/ r = 8 \/ r = 9 \/ r = 10 \/ r = 11
                   \/ r = 12 \/ r = 13 \/ r = 14 \/ r = 15) by lia.
  repeat (destruct Hcases as [->|Hcases]); try subst r; simpl; auto 6.
Qed.

(** C10: [htable_init_n] with the size hint 0 makes a table of
    [HASH_BUCKET_THRESH] = 10 buckets, not of the 16 of [htable_init]; 10
    is no power of two, and the bucket index [hash & (size - 1)] then only
    takes the values 0, 1, 8 and 9, so that the buckets 2 to 7 are never
    used. *)
Theorem init_n_zero_makes_ten_buckets old :
  exists t,
    htable_init_n (Some old) 0 = (0, Some t)
    /\ construct (CtorInitN 0) = Some t
    /\ ht_size t = HASH_BUCKET_THRESH /\ ht_size t = 10
    /\ length (ht_bucks t) = 10%nat
    /\ ht_size t <> HASH_NUM_BUCKETS
    /\ ht_size (default blank (snd (htable_init (Some old)))) = 16
    /\ (forall k, ht_size t <> 2 ^ k)
    /\ (forall hash, In (htable_which_bucket t hash) [0; 1; 8; 9])
    /\ (forall hash i, 2 <= i <= 7 -> htable_which_bucket t hash <> i).
Proof.
  eexists. split; [reflexivity|]. simpl.
  assert (Hv : forall hash, In (Z.land hash 9) [0; 1; 8; 9])
    by exact land_9_values.
  split; [reflexivity|]. split; [reflexivity|]. split; [reflexivity|].
  split; [reflexivity|].
  split; [unfold HASH_NUM_BUCKETS, HASH_BUCKET_THRESH; lia|].
  split; [reflexivity|]. split; [|split].
  - intros k Hk. unfold HASH_BUCKET_THRESH in Hk. destruct (Z.le_gt_cases k 3) as [Hle|Hgt].
    + destruct (Z.le_gt_cases 0 k) as [H0|Hneg].
      * assert (2 ^ k <= 2 ^ 3) by (apply Z.pow_le_mono_r; lia). lia.
      * rewrite Z.pow_neg_r in Hk by lia. discriminate.
    + assert (2 ^ 4 <= 2 ^ k) by (apply Z.pow_le_mono_r; lia). lia.
  - exact Hv.
  - intros hash i Hi Heq. specialize (Hv hash).
    change (htable_which_bucket _ hash) with (Z.land hash 9) in Heq.
    rewrite Heq in Hv. simpl in Hv. lia.
Qed.

(** ** Bucket addressing *)

Lemma land_low_mask hash k :
  0 <= k -> Z.land hash (2 ^ k - 1) = hash mod 2 ^ k.
Proof.
  intros Hk. rewrite <- Z.land_ones by exact Hk.
  rewrite Z.ones_equiv. reflexivity.
Qed.

Lemma low_bits_all_or_gap (k : nat) m :
  0 <= m < 2 ^ Z.of_nat k ->
  m = 2 ^ Z.of_nat k - 1
  \/ exists j, 0 <= j < Z.of_nat k /\ Z.testbit m j = false.
Proof.
  revert m. induction k as [|k IH]; intros m Hm.
  - left. simpl in *. lia.
  - rewrite Nat2Z.inj_succ, Z.pow_succ_r in * by lia.
    set (K := Z.of_nat k) in *.
    assert (Hp : 0 < 2 ^ K) by (apply Z.pow_pos_nonneg; lia).
    destruct (IH (m mod 2 ^ K)) as [Hall|(j & Hj & Hbit)].
    + apply Z.mod_pos_bound. exact Hp.
    + destruct (Z.testbit m K) eqn:Hb.
      * left. apply Z.testbit_true in Hb; [|lia].
        assert (Hq : 0 <= m / 2 ^ K < 2).
        { split; [apply Z.div_pos; lia|].
          apply Z.div_lt_upper_bound; lia. }
        assert (Hq1 : m / 2 ^ K = 1).
        { destruct (Z.eq_dec (m / 2 ^ K) 0) as [H0|H0].
          - rewrite H0 in Hb. discriminate.
          - lia. }
        pose proof (Z.div_mod m (2 ^ K)) as Hdm.
        rewrite Hq1, Hall in Hdm. lia.
      * right. exists K. split; [lia | exact Hb].
    + right. exists j. split; [lia|].
      rewrite Z.mod_pow2_bits_low in Hbit by lia. exact Hbit.
Qed.

(** X1: for every bucket count from 1 to [INT_MAX], a power of two or not,
    the bucket index that [htable_add] and [htable_find] compute lies
    within the array of buckets; for a bucket count that is a power of two
    it is the hash modulo the bucket count. *)
Theorem bucket_index_within_buckets t hash :
  1 <= ht_size t <= INT_MAX ->
  length (ht_bucks t) = Z.to_nat (ht_size t) ->
  0 <= wrap32 (htable_which_bucket t hash) < ht_size t
  /\ is_Some (ht_bucks t !! Z.to_nat (wrap32 (htable_which_bucket t hash)))
  /\ (forall k, 0 <= k -> ht_size t = 2 ^ k ->
      wrap32 (htable_which_bucket t hash) = hash mod ht_size t).
Proof.
  intros Hs Hl.
  destruct (which_bucket_range t hash Hs) as (Hwb & Hr & Hw).
  rewrite Hw. split; [exact Hr|]. split.
  - apply lookup_lt_is_Some_2. rewrite Hl. lia.
  - intros k Hk Hpow. rewrite Hwb, Hpow. apply land_low_mask. exact Hk.
Qed.

(** X2: every bucket is the bucket of some hash exactly when the bucket
    count is a power of two; with any other bucket count some bucket can
    never receive an entry. *)
Theorem all_buckets_addressed_iff_power_of_two t :
  1 <= ht_size t <= INT_MAX ->
  (forall i, 0 <= i < ht_size t ->
     exists hash, 0 <= hash < 2 ^ 32 /\ htable_which_bucket t hash = i)
  <-> (exists k, 0 <= k /\ ht_size t = 2 ^ k).
Proof.
  intros Hs. split.
  - intros Hall. set (m := ht_size t - 1).
    destruct (Z.eq_dec m 0) as [Hm0|Hm0].
    { exists 0. split; [lia|]. subst m. simpl. lia. }
    assert (Hmpos : 0 < m) by (subst m; lia).
    destruct (Z.log2_spec m Hmpos) as [Hlo Hhi].
    pose proof (Z.log2_nonneg m) as HL.
    set (L := Z.log2 m) in *.
    destruct (low_bits_all_or_gap (Z.to_nat (Z.succ L)) m)
      as [Hfull|(j & Hj & Hbit)].
    { rewrite Z2Nat.id by lia. lia. }
    { rewrite Z2Nat.id in Hfull by lia.
      exists (Z.succ L). split; [lia|]. subst m. lia. }
    exfalso. rewrite Z2Nat.id in Hj by lia.
    assert (HjL : j <> L).
    { intros ->. subst L. rewrite Z.bit_log2 in Hbit by exact Hmpos.
      discriminate. }
    assert (Hlt : 2 ^ j < 2 ^ L) by (apply Z.pow_lt_mono_r; lia).
    assert (Hjpos : 0 < 2 ^ j) by (apply Z.pow_pos_nonneg; lia).
    destruct (Hall (2 ^ j)) as (hash & _ & Hh); [subst m; lia|].
    destruct (which_bucket_range t hash Hs) as (Hwb & _ & _).
    rewrite Hwb in Hh. fold m in Hh.
    assert (Ht : Z.testbit (Z.land hash m) j = true).
    { rewrite Hh. apply Z.pow2_bits_true. lia. }
    rewrite Z.land_spec, Hbit, andb_false_r in Ht. discriminate.
  - intros (k & Hk & Hpow) i Hi. exists i. unfold INT_MAX in Hs.
    split; [lia|].
    destruct (which_bucket_range t i Hs) as (Hwb & _ & _).
    rewrite Hwb, Hpow, land_low_mask by exact Hk.
    apply Z.mod_small. lia.
Qed.

(** ** Fresh tables and the bucket count *)

Lemma bloom_test_init hash : bloom_test bloom_init hash = 0.
Proof.
  unfold bloom_test, bloom_test_bit.
  destruct (bloom_idx_range hash) as [_ Hi].
  set (idx := Z.land hash bloom_mask) in *.
  change bloom_init with (replicate 32 0).
  rewrite lookup_replicate_2 by exact Hi. reflexivity.
Qed.

(** The bucket count that an initialiser sets. *)
Lemma construct_shape c t :
  construct c = Some t ->
  ht_size t = match c with
              | CtorInit => HASH_NUM_BUCKETS
              | CtorInitN n => if 0 <? n then n else HASH_BUCKET_THRESH
              end
  /\ ht_bucks t = replicate (Z.to_nat (ht_size t)) []
  /\ ht_count t = 0
  /\ ht_bitvect t = bloom_init.
Proof.
  destruct c as [|n]; unfold construct, htable_init, htable_init_n;
    cbn [snd].
  - intros [= <-]. repeat split.
  - destruct (_ && _); [|discriminate]. intros [= <-]. repeat split.
Qed.

(** X3: right after [htable_init], or [htable_init_n] with a size hint up
    to [INT_MAX], the table has as many empty buckets as its bucket count,
    its count is 0, no bit of the bloom vector is set, the traversal yields
    nothing, and every lookup and every deletion answers with the null
    pointer, the deletion leaving the table as it is. *)
Theorem fresh_table_is_empty c t :
  construct c = Some t ->
  length (ht_bucks t) = Z.to_nat (ht_size t)
  /\ (forall chain, chain ∈ ht_bucks t -> chain = [])
  /\ ht_count t = 0
  /\ htable_for_each t = []
  /\ (forall hash, bloom_test (ht_bitvect t) hash = 0)
  /\ (forall key len, htable_find t key len = None)
  /\ (forall key len, htable_del_key t key len = (None, t)).
Proof.
  intros Hc. destruct (construct_shape c t Hc) as (_ & Hb & Hn & Hv).
  pose proof (table_ok_construct c t Hc) as Hok.
  assert (Hf : forall key len, htable_find t key len = None).
  { intros key len. unfold htable_find. rewrite Hv, bloom_test_init.
    reflexivity. }
  split; [exact (ok_bucks t Hok)|]. split.
  { intros chain Hin. rewrite Hb in Hin.
    apply elem_of_replicate in Hin as [-> _]. reflexivity. }
  split; [exact Hn|]. split.
  { apply length_zero_iff_nil.
    rewrite (htable_for_each_linked t (ok_bucks t Hok)).
    pose proof (ok_count t Hok) as Hcount. lia. }
  split; [intros hash; rewrite Hv; apply bloom_test_init|].
  split; [exact Hf|].
  intros key len. apply htable_del_key_None, Hf.
Qed.

Lemma htable_del_key_size t key len :
  ht_size (snd (htable_del_key t key len)) = ht_size t
  /\ length (ht_bucks (snd (htable_del_key t key len)))
     = length (ht_bucks t).
Proof.
  unfold htable_del_key. destruct (htable_find t key len); simpl.
  - split; [reflexivity|]. unfold hlist_del_init. apply length_fmap.
  - split; reflexivity.
Qed.

Lemma exec_size t o t' :
  exec t o = Some t' ->
  ht_size t' = ht_size t /\ length (ht_bucks t') = length (ht_bucks t).
Proof.
  destruct o as [entry key len|key len|key len|entry]; simpl.
  - destruct (_ && _); [|discriminate]. intros [= <-]. simpl.
    split; [reflexivity | apply length_alter].
  - destruct (valid_key _ _); [|discriminate]. intros [= <-].
    split; reflexivity.
  - destruct (valid_key _ _); [|discriminate]. intros [= <-].
    apply htable_del_key_size.
  - destruct (valid_key _ _); [|discriminate]. intros [= <-].
    apply htable_del_key_size.
Qed.

Lemma run_size ops t t' :
  run ops t = Some t' ->
  ht_size t' = ht_size t /\ length (ht_bucks t') = length (ht_bucks t).
Proof.
  revert t. induction ops as [|o ops IH]; intros t; simpl.
  - intros [= <-]. split; reflexivity.
  - destruct (exec t o) as [t1|] eqn:He; [|discriminate]. intros Hr.
    destruct (exec_size t o t1 He) as [Hs Hl].
    destruct (IH t1 Hr) as [Hs' Hl']. split; congruence.
Qed.

(** X4: no call changes the number of buckets: after any sequence of
    insertions, lookups and deletions the bucket count is the one the
    initialiser set, 16 for [htable_init] and the size hint (10 for the
    hint 0) for [htable_init_n], however many entries are linked. *)
Theorem bucket_count_is_fixed c ops t :
  history c ops = Some t ->
  ht_size t = match c with
              | CtorInit => HASH_NUM_BUCKETS
              | CtorInitN n => if 0 <? n then n else HASH_BUCKET_THRESH
              end
  /\ length (ht_bucks t) = Z.to_nat (ht_size t).
Proof.
  intros Hh. pose proof (table_ok_history c ops t Hh) as Hok.
  split; [|exact (ok_bucks t Hok)].
  unfold history in Hh. destruct (construct c) as [t0|] eqn:Hc;
    [|discriminate].
  destruct (run_size ops t0 t Hh) as [Hs _].
  rewrite Hs. exact (proj1 (construct_shape c t0 Hc)).
Qed.

(** ** The bits of the bloom vector *)

Lemma land_bit_value x k :
  0 <= k ->
  Z.land x (Z.shiftl 1 k) = if Z.testbit x k then Z.shiftl 1 k else 0.
Proof.
  intros Hk. rewrite Z.shiftl_1_l. apply Z.bits_inj'. intros n Hn.
  rewrite Z.land_spec, Z.pow2_bits_eqb by exact Hk.
  destruct (Z.eqb_spec k n) as [->|Hne].
  - destruct (Z.testbit x n) eqn:Hb.
    + rewrite Z.pow2_bits_true by exact Hn. reflexivity.
    + rewrite Z.bits_0. reflexivity.
  - rewrite andb_false_r. destruct (Z.testbit x k).
    + rewrite Z.pow2_bits_false by exact Hne. reflexivity.
    + rewrite Z.bits_0. reflexivity.
Qed.

Lemma bloom_idx_split idx idx' :
  0 <= idx -> 0 <= idx' ->
  Z.to_nat (idx / BITS_PER_BYTE) = Z.to_nat (idx' / BITS_PER_BYTE) ->
  idx mod BITS_PER_BYTE = idx' mod BITS_PER_BYTE -> idx = idx'.
Proof.
  unfold BITS_PER_BYTE. intros H0 H0' Hd Hm.
  assert (0 <= idx / 8) by (apply Z.div_pos; lia).
  assert (0 <= idx' / 8) by (apply Z.div_pos; lia).
  pose proof (Z.div_mod idx 8). pose proof (Z.div_mod idx' 8). lia.
Qed.

Lemma bloom_mask_low h : Z.land h bloom_mask = h mod 2 ^ 8.
Proof. change bloom_mask with (2 ^ 8 - 1). apply land_low_mask. lia. Qed.

(** Setting the bit of one hash leaves the test of a hash with other low
    bits as it was. *)
Lemma bloom_test_other_bit bits hash hash' :
  hash mod 2 ^ 8 <> hash' mod 2 ^ 8 ->
  bloom_test (bloom_set bits hash') hash = bloom_test bits hash.
Proof.
  intros Hne. unfold bloom_test, bloom_set, bloom_test_bit, bloom_set_bit.
  destruct (bloom_idx_range hash) as [Hk _].
  destruct (bloom_idx_range hash') as [Hk' _].
  rewrite !bloom_mask_low in *.
  set (idx := hash mod 2 ^ 8) in *. set (idx' := hash' mod 2 ^ 8) in *.
  assert (Hi : 0 <= idx) by (subst idx; apply Z.mod_pos_bound; lia).
  assert (Hi' : 0 <= idx') by (subst idx'; apply Z.mod_pos_bound; lia).
  rewrite list_lookup_alter.
  destruct (decide (Z.to_nat (idx' / BITS_PER_BYTE)
                    = Z.to_nat (idx / BITS_PER_BYTE))) as [He|Hd];
    [|reflexivity].
  rewrite He.
  destruct (bits !! Z.to_nat (idx / BITS_PER_BYTE)) as [b|]; [|reflexivity].
  simpl. rewrite !land_bit_value by lia.
  rewrite set_byte_testbit by lia.
  destruct (Z.eqb_spec (idx' mod BITS_PER_BYTE) (idx mod BITS_PER_BYTE))
    as [Hm|Hm].
  - exfalso. apply Hne. symmetry.
    apply bloom_idx_split; assumption.
  - rewrite orb_false_r. reflexivity.
Qed.

(** The test only looks at the low 8 bits of the hash. *)
Lemma bloom_test_low_bits bits hash hash' :
  hash mod 2 ^ 8 = hash' mod 2 ^ 8 ->
  bloom_test bits hash = bloom_test bits hash'.
Proof.
  intros Heq. unfold bloom_test. rewrite !bloom_mask_low, Heq. reflexivity.
Qed.

(** X6: on a bit vector of 32 bytes and for bit indices below 256, the
    vector and the indices that [bloom_set] and [bloom_test] hand over,
    [bloom_set_bit] sets the bit of its index and no other: afterwards
    [bloom_test_bit] of that index returns the mask [1 << (idx % 8)], which
    is not 0, [bloom_test_bit] of any other index returns what it returned
    before, and the vector still has 32 bytes. *)
Theorem bloom_set_sets_one_bit bits idx idx' :
  length bits = 32%nat -> 0 <= idx < 256 -> 0 <= idx' < 256 ->
  bloom_test_bit (bloom_set_bit bits idx) idx
  = Z.shiftl 1 (idx mod BITS_PER_BYTE)
  /\ bloom_test_bit (bloom_set_bit bits idx) idx <> 0
  /\ (idx <> idx' ->
      bloom_test_bit (bloom_set_bit bits idx') idx = bloom_test_bit bits idx)
  /\ length (bloom_set_bit bits idx) = 32%nat.
Proof.
  intros Hlen Hi Hi'.
  assert (Hlow : forall j, 0 <= j < 256 -> Z.land j bloom_mask = j).
  { intros j Hj. rewrite bloom_mask_low. apply Z.mod_small. lia. }
  assert (Hk : 0 <= idx mod BITS_PER_BYTE < 8).
  { unfold BITS_PER_BYTE. apply Z.mod_pos_bound. lia. }
  assert (Hset : bloom_test_bit (bloom_set_bit bits idx) idx
                 = Z.shiftl 1 (idx mod BITS_PER_BYTE)).
  { unfold bloom_test_bit, bloom_set_bit. rewrite list_lookup_alter_eq.
    destruct (lookup_lt_is_Some_2 bits (Z.to_nat (idx / BITS_PER_BYTE)))
      as [b Hb].
    { rewrite Hlen. unfold BITS_PER_BYTE.
      assert (0 <= idx / 8 < 32).
      { split; [apply Z.div_pos; lia | apply Z.div_lt_upper_bound; lia]. }
      lia. }
    rewrite Hb. cbn [fmap option_fmap option_map default id].
    rewrite land_bit_value by lia.
    rewrite set_byte_testbit by lia.
    rewrite Z.eqb_refl, orb_true_r. reflexivity. }
  split; [exact Hset|]. split.
  { rewrite Hset, Z.shiftl_1_l.
    assert (0 < 2 ^ (idx mod BITS_PER_BYTE)) by (apply Z.pow_pos_nonneg; lia).
    lia. }
  split.
  - intros Hne.
    pose proof (bloom_test_other_bit bits idx idx') as Hother.
    unfold bloom_test, bloom_set in Hother.
    rewrite !Hlow in Hother by assumption.
    apply Hother. rewrite !Z.mod_small by lia. exact Hne.
  - unfold bloom_set_bit. rewrite length_alter. exact Hlen.
Qed.

Lemma added_keys_snoc ops o :
  added_keys (ops ++ [o])
  = added_keys ops ++ match o with
                      | OpAdd _ key len => [(key, len)]
                      | _ => []
                      end.
Proof.
  induction ops as [|a ops IH]; simpl.
  - destruct o; reflexivity.
  - rewrite IH. destruct a; reflexivity.
Qed.

(** X5: in a table made by an initialiser and a sequence of calls, the
    bloom test of a hash succeeds exactly when some call of [htable_add] in
    the sequence had a key whose hash has the same low 8 bits; deletions
    play no part in it. *)
Theorem bloom_bits_are_inserted_hashes c ops t hash :
  history c ops = Some t ->
  bloom_test (ht_bitvect t) hash <> 0
  <-> (exists key len,
         (key, len) ∈ added_keys ops
         /\ key_hash key len mod 2 ^ 8 = hash mod 2 ^ 8).
Proof.
  revert t. induction ops as [|o ops IH] using rev_ind; intros t Hh.
  - unfold history in Hh.
    destruct (construct c) as [t0|] eqn:Hc; [|discriminate].
    injection Hh as <-.
    destruct (construct_shape c t0 Hc) as (_ & _ & _ & ->).
    rewrite bloom_test_init. split; [intros H; contradiction|].
    intros (key & len & Hin & _). inversion Hin.
  - apply history_snoc in Hh as (t0 & Hh & He).
    pose proof (table_ok_history c ops t0 Hh) as Hok.
    specialize (IH t0 Hh). rewrite added_keys_snoc.
    assert (Hsame : ht_bitvect t = ht_bitvect t0 ->
              (match o with OpAdd _ key len => [(key, len)] | _ => [] end)
              = [] ->
              bloom_test (ht_bitvect t) hash <> 0
              <-> (exists key len,
                     (key, len) ∈ added_keys ops ++
                       match o with
                       | OpAdd _ key0 len0 => [(key0, len0)]
                       | _ => []
                       end
                     /\ key_hash key len mod 2 ^ 8 = hash mod 2 ^ 8)).
    { intros -> ->. rewrite app_nil_r. exact IH. }
    destruct o as [entry key len|key len|key len|entry]; simpl in He.
    + destruct (_ && _); [|discriminate]. injection He as <-. simpl.
      destruct (Z.eq_dec (key_hash key len mod 2 ^ 8) (hash mod 2 ^ 8))
        as [Heq|Hne].
      * split.
        -- intros _. exists key, len. split; [|exact Heq].
           apply elem_of_app. right. apply list_elem_of_here.
        -- intros _. rewrite (bloom_test_low_bits _ hash (key_hash key len))
             by (symmetry; exact Heq).
           apply bloom_test_set. exact (ok_bitvect t0 Hok).
      * rewrite bloom_test_other_bit
          by (intros Hc; apply Hne; symmetry; exact Hc).
        rewrite IH. split.
        -- intros (k & l & Hin & Hk). exists k, l. split; [|exact Hk].
           apply elem_of_app. left. exact Hin.
        -- intros (k & l & Hin & Hk). exists k, l. split; [|exact Hk].
           apply elem_of_app in Hin as [Hin|Hin]; [exact Hin|].
           apply list_elem_of_singleton in Hin. injection Hin as -> ->.
           contradiction.
    + destruct (valid_key _ _); [|discriminate]. injection He as <-.
      apply Hsame; reflexivity.
    + destruct (valid_key _ _); [|discriminate]. injection He as <-.
      apply Hsame; [apply htable_del_key_bitvect | reflexivity].
    + destruct (valid_key _ _); [|discriminate]. injection He as <-.
      apply Hsame; [apply htable_del_key_bitvect | reflexivity].
Qed.

(** ** How insertion, deletion and lookup compose *)

Lemma htable_find_plain t key len :
  table_ok t -> htable_find t key len = plain_scan t key len.
Proof.
  intros Hok. rewrite htable_find_unfold by exact (ok_size t Hok).
  destruct (Z.eqb_spec (bloom_test (ht_bitvect t) (key_hash key len)) 0)
    as [Hz|Hnz]; simpl; [|reflexivity].
  destruct (plain_scan t key len) as [e|] eqn:Hs; [|reflexivity].
  exfalso. apply hlist_scan_elem in Hs as [He Hm].
  apply bucket_elem in He as (chain & Hc & He).
  assert (Hl : e ∈ linked t).
  { apply elem_of_linked. eexists _, chain. split; eassumption. }
  pose proof (ok_bloom t Hok e Hl) as Hbl.
  rewrite (key_match_hash _ _ _ Hm) in Hbl. contradiction.
Qed.

Lemma nodes_inj (l : list htable_entry) x y :
  NoDup (e_node <$> l) -> x ∈ l -> y ∈ l -> e_node x = e_node y -> x = y.
Proof.
  induction l as [|a l IH]; intros Hnd Hx Hy Heq; [inversion Hx|].
  rewrite fmap_cons in Hnd. apply NoDup_cons in Hnd as [Hnot Hnd].
  apply elem_of_cons in Hx as [->|Hx]; apply elem_of_cons in Hy as [->|Hy].
  - reflexivity.
  - exfalso. apply Hnot. rewrite Heq. apply list_elem_of_fmap.
    exists y. split; [reflexivity | exact Hy].
  - exfalso. apply Hnot. rewrite <- Heq. apply list_elem_of_fmap.
    exists x. split; [reflexivity | exact Hx].
  - apply IH; assumption.
Qed.

Lemma hlist_scan_filter key len n (h : hlist_head) :
  (forall x, x ∈ h -> e_node x = n -> key_match key len x = false) ->
  hlist_scan key len (filter (fun e => e_node e <> n) h)
  = hlist_scan key len h.
Proof.
  induction h as [|a h IH]; intros Hno; [reflexivity|].
  assert (IH' : hlist_scan key len (filter (fun e => e_node e <> n) h)
                = hlist_scan key len h).
  { apply IH. intros x Hx. apply Hno. apply list_elem_of_further. exact Hx. }
  rewrite filter_cons. destruct (decide (e_node a <> n)) as [Hne|Heq].
  - simpl. rewrite IH'. reflexivity.
  - simpl. rewrite IH'.
    rewrite (Hno a (list_elem_of_here _ _)); [reflexivity|].
    destruct (Z.eq_dec (e_node a) n); [assumption | contradiction].
Qed.

Lemma bucket_filter n (bucks : list hlist_head) i :
  bucket (filter (fun e => e_node e <> n) <$> bucks) i
  = filter (fun e => e_node e <> n) (bucket bucks i).
Proof.
  unfold bucket. rewrite list_lookup_fmap.
  destruct (bucks !! Z.to_nat i); reflexivity.
Qed.

Lemma bucket_add_head e (bucks : list hlist_head) (i : nat) chain z :
  bucks !! i = Some chain ->
  bucket (alter (hlist_add_head e) i bucks) z
  = if decide (i = Z.to_nat z) then e :: chain else bucket bucks z.
Proof.
  intros Hc. unfold bucket. rewrite list_lookup_alter.
  destruct (decide (i = Z.to_nat z)) as [Heq|Hne]; [|reflexivity].
  rewrite Hc. reflexivity.
Qed.

Lemma fresh_not_in_chain t n (i : nat) chain :
  n ∉ e_node <$> linked t -> ht_bucks t !! i = Some chain ->
  n ∉ e_node <$> chain.
Proof.
  intros Hfresh Hc Hin. apply Hfresh.
  apply list_elem_of_fmap in Hin as (x & -> & Hx).
  apply list_elem_of_fmap. exists x. split; [reflexivity|].
  apply elem_of_linked. exists i, chain. split; assumption.
Qed.

Lemma different_key_no_match key len key' len' e :
  ~ (len' = len /\ key_bytes key' len = key_bytes key len) ->
  key_match key len e = true -> key_match key' len' e = false.
Proof.
  intros Hdiff [Hl Hb]%key_match_spec.
  destruct (key_match key' len' e) eqn:Hm; [|reflexivity].
  apply key_match_spec in Hm as [Hl' Hb']. exfalso. apply Hdiff.
  split; [congruence|]. assert (len' = len) as -> by congruence. congruence.
Qed.

Lemma htable_del_key_inv t key len e t' :
  htable_del_key t key len = (Some e, t') -> htable_find t key len = Some e.
Proof.
  unfold htable_del_key. destruct (htable_find t key len); [|discriminate].
  intros [= -> _]. reflexivity.
Qed.

(** X8: an insertion does not change what [htable_find] returns for any
    other key, that is one of another length or with other bytes. *)
Theorem add_keeps_other_lookups c ops t entry key len key' len' :
  history c ops = Some t -> valid_entry t entry = true ->
  ~ (len' = len /\ key_bytes key' len = key_bytes key len) ->
  htable_find (htable_add t entry key len) key' len'
  = htable_find t key' len'.
Proof.
  intros Hh Hv Hdiff. pose proof (table_ok_history c ops t Hh) as Hok.
  pose proof (table_ok_add t entry key len Hok Hv) as Hok'.
  rewrite !htable_find_plain by assumption.
  destruct (htable_add_bucks t entry key len Hok) as (i & chain & _ & Hc & Hb).
  unfold plain_scan. rewrite Hb.
  change (ht_size (htable_add t entry key len)) with (ht_size t).
  rewrite (bucket_add_head _ _ i chain _ Hc).
  destruct (decide (i = Z.to_nat _)) as [Hi|Hi]; [|reflexivity].
  unfold bucket. rewrite <- Hi, Hc. simpl.
  rewrite (different_key_no_match key len key' len' _ Hdiff
             (key_match_init entry key len)).
  reflexivity.
Qed.

(** X9: a deletion does not change what [htable_find] returns for any other
    key. *)
Theorem delete_keeps_other_lookups c ops t key len key' len' :
  history c ops = Some t ->
  ~ (len' = len /\ key_bytes key' len = key_bytes key len) ->
  htable_find (snd (htable_del_key t key len)) key' len'
  = htable_find t key' len'.
Proof.
  intros Hh Hdiff. pose proof (table_ok_history c ops t Hh) as Hok.
  pose proof (table_ok_del t key len Hok) as Hok'.
  destruct (htable_find t key len) as [e|] eqn:Hf.
  2:{ rewrite htable_del_key_None by exact Hf. reflexivity. }
  destruct (htable_del_key_Some t key len e Hok Hf)
    as (t' & Hd & Hb & _ & Hs & _).
  rewrite Hd in *. cbn [snd] in *.
  rewrite !htable_find_plain by assumption.
  unfold plain_scan. rewrite Hb, Hs, bucket_filter.
  apply htable_find_Some in Hf as [He Hm].
  apply hlist_scan_filter. intros x Hx Hn.
  apply bucket_elem in Hx as (chain & Hc & Hx).
  assert (Hxl : x ∈ linked t).
  { apply elem_of_linked. eexists _, chain. split; eassumption. }
  rewrite (nodes_inj (linked t) x e (ok_nodup t Hok) Hxl He Hn).
  exact (different_key_no_match key len key' len' e Hdiff Hm).
Qed.

(** X10: inserting an entry and deleting its key right away returns that
    entry and puts the chains, the count and the bucket count back; only
    the bloom bit of the key stays set, and every lookup answers as before
    the insertion. *)
Theorem add_then_delete_restores c ops t entry key len :
  history c ops = Some t -> valid_entry t entry = true ->
  exists t',
    htable_del_key (htable_add t entry key len) key len
    = (Some (INIT_HTABLE_ENTRY entry key len), t')
    /\ ht_bucks t' = ht_bucks t
    /\ ht_count t' = ht_count t
    /\ ht_size t' = ht_size t
    /\ ht_bitvect t' = bloom_set (ht_bitvect t) (key_hash key len)
    /\ (forall key' len', htable_find t' key' len' = htable_find t key' len').
Proof.
  intros Hh Hv. pose proof (table_ok_history c ops t Hh) as Hok.
  pose proof (table_ok_add t entry key len Hok Hv) as Hok1.
  pose proof (find_after_add t entry key len Hok Hv) as Hf.
  pose proof (htable_add_count t entry key len Hok Hv) as Hcnt.
  pose proof (table_ok_del (htable_add t entry key len) key len Hok1) as Hok2.
  destruct (htable_add_bucks t entry key len Hok) as (i & chain & _ & Hc & Hb).
  destruct (htable_del_key_Some _ key len _ Hok1 Hf)
    as (t' & Hd & Hb' & _ & Hs & Hbv & _).
  pose proof (htable_del_key_count _ key len _ t' Hok1 Hd) as Hcnt'.
  rewrite Hd in Hok2. cbn [snd] in Hok2.
  apply valid_entry_spec in Hv as [_ Hfresh].
  assert (Hbucks : ht_bucks t' = ht_bucks t).
  { rewrite Hb', Hb. apply list_eq. intros j.
    rewrite list_lookup_fmap, list_lookup_alter.
    destruct (decide (i = j)) as [<-|Hne].
    - rewrite Hc. cbn [fmap option_fmap option_map]. f_equal.
      unfold hlist_add_head.
      rewrite filter_cons_False by (intros Hn; apply Hn; reflexivity).
      apply filter_node_absent. exact (fresh_not_in_chain t _ i chain Hfresh Hc).
    - destruct (ht_bucks t !! j) as [cj|] eqn:Hj; [|reflexivity].
      cbn [fmap option_fmap option_map]. f_equal. apply filter_node_absent.
      exact (fresh_not_in_chain t _ j cj Hfresh Hj). }
  exists t'. split; [exact Hd|]. split; [exact Hbucks|].
  split; [lia|]. split; [exact Hs|]. split; [exact Hbv|].
  intros key' len'. rewrite !htable_find_plain by assumption.
  unfold plain_scan. rewrite Hbucks, Hs. reflexivity.
Qed.

(** X7: a deletion that finds its key unlinks the entry it returns and no
    other: that entry may be inserted again, every other entry stays
    linked; a lookup of the key afterwards returns another entry with the
    key, one inserted before the deleted one, and the null pointer exactly
    when the deleted entry was the only one with the key. *)
Theorem delete_unlinks_returned_entry c ops t key len e t' :
  history c ops = Some t ->
  htable_del_key t key len = (Some e, t') ->
  e ∈ linked t /\ key_match key len e = true
  /\ valid_entry t' e = true
  /\ (forall x, x ∈ linked t' <-> x ∈ linked t /\ x <> e)
  /\ (forall e2, htable_find t' key len = Some e2 ->
        e2 ∈ linked t /\ e_node e2 <> e_node e
        /\ key_match key len e2 = true /\ later ops e e2)
  /\ (htable_find t' key len = None
      <-> forall x, x ∈ linked t -> key_match key len x = true -> x = e).
Proof.
  intros Hh Hd. pose proof (table_ok_history c ops t Hh) as Hok.
  pose proof (htable_del_key_inv t key len e t' Hd) as Hf.
  pose proof (table_ok_del t key len Hok) as Hok'.
  destruct (htable_del_key_Some t key len e Hok Hf)
    as (t1 & Hd1 & _ & Hl & _).
  rewrite Hd in Hd1. injection Hd1 as <-.
  rewrite Hd in Hok'. cbn [snd] in Hok'.
  destruct (htable_find_Some t key len e Hf) as [He Hm].
  assert (Hmem : forall x, x ∈ linked t' <-> x ∈ linked t /\ x <> e).
  { intros x. rewrite Hl, list_elem_of_filter. split.
    - intros [Hn Hx]. split; [exact Hx|]. intros ->. apply Hn. reflexivity.
    - intros [Hx Hn]. split; [|exact Hx]. intros Heq. apply Hn.
      exact (nodes_inj (linked t) x e (ok_nodup t Hok) Hx He Heq). }
  split; [exact He|]. split; [exact Hm|]. split.
  { apply valid_entry_spec. split; [exact (ok_addr t Hok e He)|].
    intros (x & Hn & Hx)%list_elem_of_fmap.
    rewrite Hl in Hx. apply list_elem_of_filter in Hx as [Hne _].
    apply Hne. symmetry. exact Hn. }
  split; [exact Hmem|]. split.
  - intros e2 Hf2. destruct (htable_find_Some t' key len e2 Hf2) as [He2 Hm2].
    rewrite Hl in He2. apply list_elem_of_filter in He2 as [Hne He2].
    split; [exact He2|]. split; [exact Hne|]. split; [exact Hm2|].
    exact (find_most_recent c ops t key len e e2 Hh Hf He2 Hm2 Hne).
  - split.
    + intros Hnone x Hx Hmx.
      destruct (decide (e_node x = e_node e)) as [Hxe|Hxe];
        [exact (nodes_inj (linked t) x e (ok_nodup t Hok) Hx He Hxe)|].
      exfalso. assert (Hx' : x ∈ linked t').
      { apply Hmem. split; [exact Hx|]. intros ->. apply Hxe. reflexivity. }
      destruct (find_present t' key len x Hok' Hx' Hmx) as [y Hy].
      congruence.
    + intros Honly. destruct (htable_find t' key len) as [e2|] eqn:Hf2;
        [|reflexivity].
      exfalso. destruct (htable_find_Some t' key len e2 Hf2) as [He2 Hm2].
      apply Hmem in He2 as [He2 Hne]. apply Hne.
      exact (Honly e2 He2 Hm2).
Qed.

Lemma concat_add_head_split (e : htable_entry) (bucks : list hlist_head) i :
  (i < length bucks)%nat ->
  concat (alter (hlist_add_head e) i bucks)
  = concat (take i bucks) ++ e :: concat (drop i bucks).
Proof.
  revert i. induction bucks as [|c bucks IH]; intros [|i] Hi;
    simpl in Hi; try lia.
  - reflexivity.
  - change (c ++ concat (alter (hlist_add_head e) i bucks)
            = (c ++ concat (take i bucks)) ++ e :: concat (drop i bucks)).
    rewrite (IH i) by lia. rewrite app_assoc. reflexivity.
Qed.

(** X11: the traversal after an insertion is the traversal before it with
    the new entry put in front of the entries of its bucket and of the
    buckets after it; the traversal after a deletion is the traversal before
    it without the deleted entry, the others in the same order. *)
Theorem traversal_after_add_and_delete c ops t :
  history c ops = Some t ->
  (forall entry key len,
      valid_entry t entry = true ->
      let i := Z.to_nat (wrap32 (htable_which_bucket t (key_hash key len))) in
      htable_for_each t
      = concat (take i (ht_bucks t)) ++ concat (drop i (ht_bucks t))
      /\ htable_for_each (htable_add t entry key len)
         = concat (take i (ht_bucks t))
           ++ INIT_HTABLE_ENTRY entry key len :: concat (drop i (ht_bucks t)))
  /\ (forall key len e t',
        htable_del_key t key len = (Some e, t') ->
        htable_for_each t'
        = filter (fun x => e_node x <> e_node e) (htable_for_each t)).
Proof.
  intros Hh. pose proof (table_ok_history c ops t Hh) as Hok. split.
  - intros entry key len Hv i.
    pose proof (table_ok_add t entry key len Hok Hv) as Hok'.
    rewrite (htable_for_each_linked _ (ok_bucks _ Hok)).
    rewrite (htable_for_each_linked _ (ok_bucks _ Hok')).
    destruct (which_bucket_range t (key_hash key len) (ok_size t Hok))
      as (_ & Hr & Hw).
    split.
    + unfold linked. rewrite <- concat_app, take_drop. reflexivity.
    + unfold linked, htable_add. simpl. fold i.
      apply concat_add_head_split. rewrite (ok_bucks t Hok). subst i. lia.
  - intros key len e t' Hd.
    pose proof (htable_del_key_inv t key len e t' Hd) as Hf.
    pose proof (table_ok_del t key len Hok) as Hok'.
    destruct (htable_del_key_Some t key len e Hok Hf)
      as (t1 & Hd1 & _ & Hl & _).
    rewrite Hd in Hd1. injection Hd1 as <-.
    rewrite Hd in Hok'. cbn [snd] in Hok'.
    rewrite (htable_for_each_linked _ (ok_bucks _ Hok)).
    rewrite (htable_for_each_linked _ (ok_bucks _ Hok')). exact Hl.
Qed.

(** ** Traversal that deletes what it visits *)

Lemma nodup_chain (bucks : list hlist_head) (i : nat) chain :
  NoDup (e_node <$> concat bucks) -> bucks !! i = Some chain ->
  NoDup (e_node <$> chain).
Proof.
  revert i. induction bucks as [|c bucks IH]; intros i Hnd Hi;
    [discriminate|].
  simpl in Hnd. rewrite fmap_app in Hnd.
  apply NoDup_app in Hnd as (Hc & _ & Hrest).
  destruct i as [|i]; simpl in Hi.
  - injection Hi as <-. exact Hc.
  - exact (IH i Hrest Hi).
Qed.

Lemma nodup_chains_disjoint (bucks : list hlist_head) (i j : nat) ci cj x y :
  NoDup (e_node <$> concat bucks) ->
  bucks !! i = Some ci -> bucks !! j = Some cj ->
  x ∈ ci -> y ∈ cj -> e_node x = e_node y -> i = j.
Proof.
  revert i j. induction bucks as [|c bucks IH]; intros i j Hnd Hi Hj Hx Hy Heq;
    [discriminate|].
  simpl in Hnd. rewrite fmap_app in Hnd.
  apply NoDup_app in Hnd as (_ & Hdis & Hrest).
  assert (Hcross : forall (k : nat) ck a b,
            bucks !! k = Some ck -> a ∈ c -> b ∈ ck ->
            e_node a = e_node b -> False).
  { intros k ck a b Hk Ha Hb Hab. apply (Hdis (e_node a)).
    - apply list_elem_of_fmap. exists a. split; [reflexivity | exact Ha].
    - rewrite Hab. apply list_elem_of_fmap. exists b.
      split; [reflexivity|]. apply elem_of_concat. exists ck.
      split; [exact Hb|]. apply list_elem_of_lookup. exists k. exact Hk. }
  destruct i as [|i], j as [|j]; simpl in Hi, Hj.
  - reflexivity.
  - injection Hi as <-. exfalso. exact (Hcross j cj x y Hj Hx Hy Heq).
  - injection Hj as <-. exfalso.
    exact (Hcross i ci y x Hi Hy Hx (eq_sym Heq)).
  - f_equal. exact (IH i j Hrest Hi Hj Hx Hy Heq).
Qed.

(** The link of the first entry of a chain leads to the second one. *)
Lemma node_next_head (bucks : list hlist_head) (i : nat) p rest :
  NoDup (e_node <$> concat bucks) -> bucks !! i = Some (p :: rest) ->
  node_next bucks p = head rest.
Proof.
  intros Hnd Hi.
  assert (Hgen : forall (l : list hlist_head) (k : nat),
            l !! k = Some (p :: rest) ->
            (forall (j : nat) cj y, l !! j = Some cj -> y ∈ cj ->
                                    e_node y = e_node p -> j = k) ->
            node_next l p = head rest).
  { induction l as [|c l IH]; intros k Hk Hu; [discriminate|].
    destruct k as [|k]; simpl in Hk.
    - injection Hk as ->. simpl. rewrite Z.eqb_refl. reflexivity.
    - simpl.
      destruct (existsb (fun e => e_node e =? e_node p) c) eqn:Hex.
      + exfalso. apply existsb_exists in Hex as (y & Hy & Hn).
        apply Z.eqb_eq in Hn. apply list_elem_of_In in Hy.
        specialize (Hu O c y eq_refl Hy Hn). discriminate.
      + apply (IH k Hk). intros j cj y Hj Hy Hn.
        specialize (Hu (S j) cj y Hj Hy Hn). lia. }
  apply (Hgen bucks i Hi). intros j cj y Hj Hy Hn.
  exact (nodup_chains_disjoint bucks j i cj (p :: rest) y p Hnd Hj Hi Hy
           (list_elem_of_here _ _) Hn).
Qed.

(** Deleting by the first entry of a chain unlinks that entry. *)
Lemma delete_visited_head t (i : nat) p rest :
  table_ok t -> ht_bucks t !! i = Some (p :: rest) ->
  table_ok (delete_visited t p)
  /\ ht_bucks (delete_visited t p) = <[i := rest]> (ht_bucks t)
  /\ ht_size (delete_visited t p) = ht_size t
  /\ ht_bitvect (delete_visited t p) = ht_bitvect t
  /\ ht_count (delete_visited t p) = ht_count t - 1.
Proof.
  intros Hok Hi.
  assert (Hp : p ∈ linked t).
  { apply elem_of_linked. exists i, (p :: rest).
    split; [exact Hi | apply list_elem_of_here]. }
  assert (Hf : htable_find t (e_key p) (e_len p) = Some p).
  { rewrite htable_find_plain by exact Hok. unfold plain_scan.
    pose proof (ok_place t Hok i _ p Hi (list_elem_of_here _ _)) as Hpl.
    destruct (which_bucket_range t (key_hash (e_key p) (e_len p))
                (ok_size t Hok)) as (Hwb & _ & _).
    rewrite <- Hwb, <- Hpl, (bucket_lookup _ _ _ Hi). simpl.
    assert (Hself : key_match (e_key p) (e_len p) p = true).
    { apply key_match_spec. split; reflexivity. }
    rewrite Hself. reflexivity. }
  pose proof (table_ok_del t (e_key p) (e_len p) Hok) as Hok'.
  destruct (htable_del_key_Some t _ _ p Hok Hf)
    as (t' & Hd & Hb & _ & Hs & Hv & _).
  pose proof (htable_del_key_count t _ _ p t' Hok Hd) as Hc.
  unfold delete_visited, htable_del_entry. rewrite Hd in *. cbn [snd] in *.
  split; [exact Hok'|]. split; [|auto].
  rewrite Hb. apply list_eq. intros j.
  rewrite list_lookup_fmap.
  pose proof (nodup_chain _ i _ (ok_nodup t Hok) Hi) as Hndc.
  rewrite fmap_cons in Hndc. apply NoDup_cons in Hndc as [Hnot _].
  destruct (decide (i = j)) as [<-|Hne].
  - rewrite list_lookup_insert_eq by (eapply lookup_lt_Some; exact Hi).
    rewrite Hi. cbn [fmap option_fmap option_map]. f_equal.
    rewrite filter_cons_False by (intros Hn; apply Hn; reflexivity).
    apply filter_node_absent. exact Hnot.
  - rewrite list_lookup_insert_ne by exact Hne.
    destruct (ht_bucks t !! j) as [cj|] eqn:Hj; [|reflexivity].
    cbn [fmap option_fmap option_map]. f_equal. apply filter_node_absent.
    intros (y & Hn & Hy)%list_elem_of_fmap. apply Hne. symmetry.
    exact (nodup_chains_disjoint _ j i cj (p :: rest) y p (ok_nodup t Hok)
             Hj Hi Hy (list_elem_of_here _ _) (eq_sym Hn)).
Qed.

Lemma safe_chain_delete chain :
  forall fuel t (i : nat),
    table_ok t -> ht_bucks t !! i = Some chain ->
    (length chain < fuel)%nat ->
    exists t',
      safe_chain fuel delete_visited (head chain) t = Some (chain, t')
      /\ table_ok t'
      /\ ht_bucks t' = <[i := []]> (ht_bucks t)
      /\ ht_size t' = ht_size t
      /\ ht_bitvect t' = ht_bitvect t
      /\ ht_count t' = ht_count t - Z.of_nat (length chain).
Proof.
  induction chain as [|p rest IH]; intros fuel t i Hok Hi Hfuel.
  - exists t. simpl. split; [destruct fuel; reflexivity|]. split; [exact Hok|].
    split; [symmetry; apply list_insert_id; exact Hi|].
    split; [reflexivity|]. split; [reflexivity|]. lia.
  - destruct fuel as [|fuel]; [simpl in Hfuel; lia|].
    simpl in Hfuel. cbn [head safe_chain].
    rewrite (node_next_head _ i p rest (ok_nodup t Hok) Hi).
    destruct (delete_visited_head t i p rest Hok Hi)
      as (Hok1 & Hb1 & Hs1 & Hv1 & Hc1).
    assert (Hi1 : ht_bucks (delete_visited t p) !! i = Some rest).
    { rewrite Hb1. apply list_lookup_insert_eq.
      eapply lookup_lt_Some. exact Hi. }
    destruct (IH fuel (delete_visited t p) i Hok1 Hi1 ltac:(lia))
      as (t' & Hrun & Hok' & Hb' & Hs' & Hv' & Hc').
    exists t'. rewrite Hrun. split; [reflexivity|]. split; [exact Hok'|].
    split; [rewrite Hb', Hb1; apply list_insert_insert_eq|].
    split; [congruence|]. split; [congruence|].
    rewrite Hc', Hc1. simpl length. lia.
Qed.

Lemma length_chain_le (bucks : list hlist_head) (i : nat) chain :
  bucks !! i = Some chain -> (length chain <= length (concat bucks))%nat.
Proof.
  revert i. induction bucks as [|c bucks IH]; intros [|i] Hi;
    simpl in *; try discriminate.
  - injection Hi as ->. rewrite length_app. lia.
  - specialize (IH i Hi). rewrite length_app. lia.
Qed.

Lemma safe_buckets_delete k :
  forall (i : nat) rounds fuel t,
    table_ok t -> Z.to_nat (ht_size t) = (i + k)%nat ->
    (k < rounds)%nat -> ht_count t < Z.of_nat fuel ->
    exists t',
      safe_buckets rounds fuel delete_visited (Z.of_nat i) t
      = Some (concat (drop i (ht_bucks t)), t')
      /\ table_ok t'
      /\ ht_bucks t' = take i (ht_bucks t) ++ replicate k []
      /\ ht_size t' = ht_size t
      /\ ht_bitvect t' = ht_bitvect t
      /\ ht_count t'
         = ht_count t - Z.of_nat (length (concat (drop i (ht_bucks t)))).
Proof.
  induction k as [|k IH]; intros i rounds fuel t Hok Hsz Hr Hfuel;
    (destruct rounds as [|rounds]; [lia|]);
    pose proof (ok_size t Hok) as Hsize;
    pose proof (ok_bucks t Hok) as Hlen; cbn [safe_buckets].
  - destruct (Z.ltb_spec (Z.of_nat i) (ht_size t)) as [Hlt|_]; [lia|].
    exists t. rewrite drop_ge, take_ge by lia. simpl.
    rewrite app_nil_r. split; [reflexivity|]. split; [exact Hok|].
    split; [reflexivity|]. split; [reflexivity|]. split; [reflexivity|].
    lia.
  - destruct (Z.ltb_spec (Z.of_nat i) (ht_size t)) as [_|Hge]; [|lia].
    destruct (lookup_lt_is_Some_2 (ht_bucks t) i) as [chain Hi]; [lia|].
    rewrite (bucket_lookup _ _ _ Hi).
    pose proof (length_chain_le _ _ _ Hi) as Hle.
    pose proof (ok_count t Hok) as Hcnt. unfold linked in Hcnt.
    destruct (safe_chain_delete chain fuel t i Hok Hi ltac:(lia))
      as (t1 & Hrun1 & Hok1 & Hb1 & Hs1 & Hv1 & Hc1).
    rewrite Hrun1.
    replace (Z.of_nat i + 1) with (Z.of_nat (S i)) by lia.
    destruct (IH (S i) rounds fuel t1 Hok1 ltac:(lia) ltac:(lia) ltac:(lia))
      as (t' & Hrun & Hok' & Hb' & Hs' & Hv' & Hc').
    rewrite Hrun. exists t'.
    assert (Hdrop : drop (S i) (ht_bucks t1) = drop (S i) (ht_bucks t)).
    { rewrite Hb1. apply drop_insert_lt. lia. }
    rewrite Hdrop in *. rewrite (drop_S _ _ _ Hi). simpl concat.
    split; [reflexivity|]. split; [exact Hok'|]. split.
    { rewrite Hb', Hb1.
      rewrite (take_S_r _ i []) by (apply list_lookup_insert_eq; lia).
      rewrite take_insert_ge by lia. rewrite <- app_assoc. reflexivity. }
    split; [congruence|]. split; [congruence|].
    rewrite Hc', Hc1, length_app. lia.
Qed.

(** X12: the traversal [htable_for_each_safe] whose body deletes the entry
    it is given, by [htable_del_entry], comes to an end, has run the body
    on the entries that the plain traversal yields, each one once and in
    that order, and leaves a table with every chain empty and the count 0;
    the bucket count and the bloom vector are as before. *)
Theorem for_each_safe_deleting_empties_table c ops t fuel :
  history c ops = Some t ->
  ht_size t < Z.of_nat fuel -> ht_count t < Z.of_nat fuel ->
  exists t',
    htable_for_each_safe fuel delete_visited t = Some (htable_for_each t, t')
    /\ ht_bucks t' = replicate (Z.to_nat (ht_size t)) []
    /\ linked t' = []
    /\ ht_count t' = 0
    /\ ht_size t' = ht_size t
    /\ ht_bitvect t' = ht_bitvect t
    /\ NoDup (e_node <$> htable_for_each t).
Proof.
  intros Hh Hf1 Hf2. pose proof (table_ok_history c ops t Hh) as Hok.
  pose proof (ok_size t Hok) as Hsize.
  destruct (safe_buckets_delete (Z.to_nat (ht_size t)) O fuel fuel t Hok
              eq_refl ltac:(lia) Hf2)
    as (t' & Hrun & Hok' & Hb & Hs & Hv & Hc).
  rewrite drop_0 in Hrun, Hc. rewrite take_0 in Hb. simpl in Hb.
  pose proof (htable_for_each_linked t (ok_bucks t Hok)) as Hfe.
  exists t'. unfold htable_for_each_safe. rewrite Hfe.
  split; [exact Hrun|]. split; [exact Hb|].
  assert (Hl : linked t' = []).
  { unfold linked. rewrite Hb. clear.
    induction (Z.to_nat (ht_size t)) as [|n IHn]; [reflexivity | exact IHn]. }
  split; [exact Hl|]. split.
  { rewrite (ok_count t' Hok'), Hl. reflexivity. }
  split; [exact Hs|]. split; [exact Hv|]. exact (ok_nodup t Hok).
Qed.

(** Unlinking an entry from the middle of its chain leaves the entries
    before and after it and the other chains. *)
Lemma filter_unlink_middle t (i : nat) h1 e h2 :
  table_ok t -> ht_bucks t !! i = Some (h1 ++ e :: h2) ->
  filter (fun x => e_node x <> e_node e) <$> ht_bucks t
  = <[i := h1 ++ h2]> (ht_bucks t).
Proof.
  intros Hok Hi.
  pose proof (nodup_chain _ i _ (ok_nodup t Hok) Hi) as Hnd.
  rewrite fmap_app, fmap_cons in Hnd.
  apply NoDup_app in Hnd as (_ & Hdis & Hnd2).
  apply NoDup_cons in Hnd2 as [Hnot2 _].
  assert (Hnot1 : e_node e ∉ e_node <$> h1).
  { intros Hin. apply (Hdis _ Hin). apply list_elem_of_here. }
  assert (He : e ∈ h1 ++ e :: h2).
  { apply elem_of_app. right. apply list_elem_of_here. }
  apply list_eq. intros j. rewrite list_lookup_fmap.
  destruct (decide (i = j)) as [<-|Hne].
  - rewrite list_lookup_insert_eq by (eapply lookup_lt_Some; exact Hi).
    rewrite Hi. cbn [fmap option_fmap option_map]. f_equal.
    rewrite filter_app.
    rewrite filter_cons_False by (intros Hn; apply Hn; reflexivity).
    rewrite !filter_node_absent by assumption. reflexivity.
  - rewrite list_lookup_insert_ne by exact Hne.
    destruct (ht_bucks t !! j) as [cj|] eqn:Hj; [|reflexivity].
    cbn [fmap option_fmap option_map]. f_equal. apply filter_node_absent.
    intros (y & Hn & Hy)%list_elem_of_fmap. apply Hne. symmetry.
    exact (nodup_chains_disjoint _ j i cj _ y e (ok_nodup t Hok)
             Hj Hi Hy He (eq_sym Hn)).
Qed.

(** C7: [htable_del_entry] is [htable_del_key] with the key and the length
    stored in the entry, so that it returns and unlinks what [htable_find]
    returns for them.  For a linked entry it returns an entry with the
    length and the bytes of the key of the given one, the first such entry
    of the chain of the bucket of that key; this is the given entry itself
    or one inserted later.  The entry returned is taken out of that chain,
    the entries before and after it and the other chains stay, the count
    goes down by one, and the entry returned is no longer linked.  With two
    linked entries of one key, deleting by the older one unlinks the other
    and leaves the older one linked. *)
Theorem del_entry_is_del_by_key :
  (forall t entry,
      htable_del_entry t entry
      = htable_del_key t (e_key entry) (e_len entry))
  /\ (forall t entry,
        fst (htable_del_entry t entry)
        = htable_find t (e_key entry) (e_len entry))
  /\ (forall c ops t entry,
        history c ops = Some t -> entry ∈ linked t ->
        exists e,
          fst (htable_del_entry t entry) = Some e
          /\ key_match (e_key entry) (e_len entry) e = true
          /\ (e_node e = e_node entry \/ later ops e entry))
  /\ (forall c ops t entry,
        history c ops = Some t -> entry ∈ linked t ->
        exists e t' (i : nat) h1 h2,
          htable_del_entry t entry = (Some e, t')
          /\ e_len e = e_len entry
          /\ key_bytes (e_key e) (e_len entry)
             = key_bytes (e_key entry) (e_len entry)
          /\ Z.of_nat i
             = Z.land (key_hash (e_key entry) (e_len entry)) (ht_size t - 1)
          /\ ht_bucks t !! i = Some (h1 ++ e :: h2)
          /\ (forall x, x ∈ h1 ->
                ~ (e_len x = e_len entry
                   /\ key_bytes (e_key x) (e_len entry)
                      = key_bytes (e_key entry) (e_len entry)))
          /\ ht_bucks t' = <[i := h1 ++ h2]> (ht_bucks t)
          /\ (e_node e ∉ e_node <$> linked t')
          /\ (forall x, (x ∈ linked t')
                        <-> (x ∈ linked t /\ e_node x <> e_node e))
          /\ ht_count t' = ht_count t - 1
          /\ ht_size t' = ht_size t
          /\ ht_bitvect t' = ht_bitvect t)
  /\ (exists c ops t entry e,
        history c ops = Some t /\ entry ∈ linked t
        /\ fst (htable_del_entry t entry) = Some e
        /\ e_node e <> e_node entry
        /\ entry ∈ linked (snd (htable_del_entry t entry))
        /\ e_node e ∉ e_node <$> linked (snd (htable_del_entry t entry))).
Proof.
  assert (Hfst : forall t entry,
            fst (htable_del_entry t entry)
            = htable_find t (e_key entry) (e_len entry)).
  { intros t entry. unfold htable_del_entry, htable_del_key.
    destruct (htable_find t _ _); reflexivity. }
  assert (Hself : forall entry,
            key_match (e_key entry) (e_len entry) entry = true).
  { intros entry. apply key_match_spec. split; reflexivity. }
  split; [reflexivity|]. split; [exact Hfst|]. split; [|split].
  - intros c ops t entry Hh He.
    pose proof (table_ok_history c ops t Hh) as Hok.
    destruct (find_present t _ _ entry Hok He (Hself entry)) as [e Hf].
    exists e. rewrite Hfst. split; [exact Hf|].
    split; [exact (proj2 (htable_find_Some _ _ _ _ Hf))|].
    destruct (decide (e_node e = e_node entry)) as [Heq|Hne];
      [left; exact Heq|].
    right.
    exact (find_most_recent c ops t _ _ e entry Hh Hf He (Hself entry)
             (fun Hc => Hne (eq_sym Hc))).
  - intros c ops t entry Hh He.
    pose proof (table_ok_history c ops t Hh) as Hok.
    destruct (find_present t _ _ entry Hok He (Hself entry)) as [e Hf].
    pose proof Hf as Hscan.
    rewrite htable_find_plain in Hscan by exact Hok.
    unfold plain_scan in Hscan.
    destruct (which_bucket_range t (key_hash (e_key entry) (e_len entry))
                (ok_size t Hok)) as (Hwb & Hr & _).
    rewrite Hwb in Hr.
    set (z := Z.land (key_hash (e_key entry) (e_len entry))
                (ht_size t - 1)) in *.
    apply hlist_scan_Some in Hscan as (h1 & h2 & Hsplit & Hm & Hno).
    assert (Hi : ht_bucks t !! Z.to_nat z = Some (h1 ++ e :: h2)).
    { unfold bucket in Hsplit.
      destruct (ht_bucks t !! Z.to_nat z) as [chain|]; simpl in Hsplit.
      - rewrite Hsplit. reflexivity.
      - destruct h1; discriminate. }
    destruct (htable_del_key_Some t _ _ e Hok Hf)
      as (t' & Hd & Hb & Hl & Hs & Hv & _).
    pose proof (htable_del_key_count t _ _ e t' Hok Hd) as Hcnt.
    apply key_match_spec in Hm as [Hlen Hbytes].
    exists e, t', (Z.to_nat z), h1, h2.
    split; [exact Hd|]. split; [exact Hlen|]. split; [exact Hbytes|].
    split; [lia|]. split; [exact Hi|]. split.
    { intros x Hx Hsame. rewrite Forall_forall in Hno.
      specialize (Hno x Hx). apply key_match_spec in Hsame. congruence. }
    split.
    { rewrite Hb. apply filter_unlink_middle; assumption. }
    split.
    { intros (x & Hn & Hx)%list_elem_of_fmap. rewrite Hl in Hx.
      apply list_elem_of_filter in Hx as [Hne _]. apply Hne. symmetry.
      exact Hn. }
    split.
    { intros x. rewrite Hl, list_elem_of_filter. tauto. }
    split; [exact Hcnt|]. split; [exact Hs | exact Hv].
  - set (dup := list_byte_of_string "dup").
    set (a := {| e_node := 4096; e_key := []; e_len := 0; e_hash := 0 |}).
    set (b := {| e_node := 8192; e_key := []; e_len := 0; e_hash := 0 |}).
    destruct (construct CtorInit) as [t0|] eqn:Hc; [|discriminate].
    pose proof (table_ok_construct _ _ Hc) as Hok0.
    assert (Hl0 : linked t0 = []).
    { injection Hc as <-. reflexivity. }
    assert (Hva : valid_entry t0 a = true).
    { apply valid_entry_spec. rewrite Hl0. split; [simpl; lia|].
      intros Hin. inversion Hin. }
    pose proof (history_add _ _ _ a dup 3 (history_nil _ _ Hc) Hva eq_refl)
      as Hh1.
    pose proof (table_ok_add t0 a dup 3 Hok0 Hva) as Hok1.
    pose proof (htable_add_linked t0 a dup 3 Hok0) as Hl1.
    rewrite Hl0 in Hl1. apply Permutation_singleton_r in Hl1.
    set (t1 := htable_add t0 a dup 3) in *.
    assert (Hvb : valid_entry t1 b = true).
    { apply valid_entry_spec. rewrite Hl1. split; [simpl; lia|].
      intros Hin. apply list_elem_of_singleton in Hin. discriminate. }
    pose proof (history_add _ _ _ b dup 3 Hh1 Hvb eq_refl) as Hh2.
    pose proof (table_ok_add t1 b dup 3 Hok1 Hvb) as Hok2.
    pose proof (htable_add_linked t1 b dup 3 Hok1) as Hl2.
    pose proof (find_after_add t1 b dup 3 Hok1 Hvb) as Hf.
    set (t2 := htable_add t1 b dup 3) in *.
    set (a' := INIT_HTABLE_ENTRY a dup 3) in *.
    set (b' := INIT_HTABLE_ENTRY b dup 3) in *.
    assert (Ha : a' ∈ linked t2).
    { rewrite Hl2, Hl1. apply list_elem_of_further, list_elem_of_here. }
    exists CtorInit, ([] ++ [OpAdd a dup 3] ++ [OpAdd b dup 3]), t2, a', b'.
    split; [rewrite app_assoc; exact Hh2|]. split; [exact Ha|].
    destruct (htable_del_key_Some t2 dup 3 b' Hok2 Hf)
      as (t3 & Hd & _ & Hl3 & _).
    unfold htable_del_entry. change (e_key a') with dup.
    change (e_len a') with 3. rewrite Hd. cbn [fst snd].
    split; [reflexivity|]. split; [simpl; lia|]. split.
    + rewrite Hl3. apply list_elem_of_filter.
      split; [simpl; lia | exact Ha].
    + intros (x & Hn & Hx)%list_elem_of_fmap. rewrite Hl3 in Hx.
      apply list_elem_of_filter in Hx as [Hne _]. apply Hne. symmetry.
      exact Hn.
Qed.

(** X13: in a table made by an initialiser and a sequence of calls, every
    linked entry is in the chain of the bucket [hash & (size - 1)] of its
    own key, no address is linked twice, be it in one chain or in two, and
    a bucket that is the bucket of no hash has an empty chain. *)
Theorem entries_sit_in_their_bucket c ops t :
  history c ops = Some t ->
  (forall (i : nat) chain e,
      ht_bucks t !! i = Some chain -> e ∈ chain ->
      Z.of_nat i = Z.land (key_hash (e_key e) (e_len e)) (ht_size t - 1))
  /\ (forall (i j : nat) ci cj x y,
        ht_bucks t !! i = Some ci -> ht_bucks t !! j = Some cj ->
        x ∈ ci -> y ∈ cj -> e_node x = e_node y -> i = j /\ x = y)
  /\ (forall (i : nat) chain, ht_bucks t !! i = Some chain ->
        NoDup (e_node <$> chain))
  /\ (forall (i : nat) chain,
        ht_bucks t !! i = Some chain ->
        (forall hash, htable_which_bucket t hash <> Z.of_nat i) ->
        chain = []).
Proof.
  intros Hh. pose proof (table_ok_history c ops t Hh) as Hok.
  split; [|split; [|split]].
  - intros i chain e Hi He.
    destruct (which_bucket_range t (key_hash (e_key e) (e_len e))
                (ok_size t Hok)) as (Hwb & _ & _).
    rewrite <- Hwb. exact (ok_place t Hok i chain e Hi He).
  - intros i j ci cj x y Hi Hj Hx Hy Heq. split.
    + exact (nodup_chains_disjoint _ i j ci cj x y (ok_nodup t Hok)
               Hi Hj Hx Hy Heq).
    + apply (nodes_inj (linked t) x y (ok_nodup t Hok)); [| |exact Heq];
        apply elem_of_linked; eauto.
  - intros i chain Hi. exact (nodup_chain _ i chain (ok_nodup t Hok) Hi).
  - intros i chain Hi Hno. destruct chain as [|e chain]; [reflexivity|].
    exfalso. apply (Hno (key_hash (e_key e) (e_len e))). symmetry.
    exact (ok_place t Hok i _ e Hi (list_elem_of_here _ _)).
Qed.

End Htable.

(** ** The operations at work, with the one-at-a-time hash *)

Lemma demo_history : history sample_jhash CtorInit demo_ops = Some demo_table.
Proof. vm_compute. reflexivity. Qed.

(** C5: [htable_add] computes the hash into a local variable and never
    assigns the [hash] member of the entry: whatever the hash function, the
    entry found after an insertion has in [hash] what it had before, which
    need not be the hash of its key.  With the one-at-a-time hash, a zeroed
    entry inserted under the key "x" into a fresh table still has 0 there,
    while the hash of the key is 2466489829. *)
Theorem htable_add_leaves_hash_member_unset :
  (forall jhash, exists t entry e,
      construct CtorInit = Some t
      /\ valid_entry t entry = true
      /\ htable_find jhash (htable_add jhash t entry key_x 1) key_x 1 = Some e
      /\ e_node e = e_node entry
      /\ e_hash e = e_hash entry
      /\ e_hash e <> key_hash jhash (e_key e) (e_len e))
  /\ (exists t e,
        construct CtorInit = Some t
        /\ valid_entry t (entry_at 12288) = true
        /\ htable_find sample_jhash
             (htable_add sample_jhash t (entry_at 12288) key_x 1) key_x 1
           = Some e
        /\ e_node e = 12288
        /\ key_hash sample_jhash key_x 1 = 2466489829
        /\ e_hash e = 0).
Proof.
  split.
  - intros jhash.
    destruct (construct CtorInit) as [t|] eqn:Hc; [|discriminate].
    set (entry := {| e_node := 12288; e_key := []; e_len := 0;
                     e_hash := key_hash jhash key_x 1 + 1 |}).
    assert (Hv : valid_entry t entry = true).
    { injection Hc as <-. reflexivity. }
    destruct (htable_add_hash_member jhash t entry key_x 1
                (table_ok_construct jhash _ _ Hc) Hv)
      as (e & Hf & Hn & Hk & Hl & Hh).
    exists t, entry, e. split; [reflexivity|]. split; [exact Hv|].
    split; [exact Hf|]. split; [exact Hn|]. split; [exact Hh|].
    rewrite Hh, Hk, Hl. simpl. lia.
  - eexists. eexists. split; [reflexivity|]. split; [reflexivity|].
    split; [vm_compute; reflexivity|]. split; [reflexivity|].
    split; [vm_compute; reflexivity|]. reflexivity.
Qed.

Lemma find_returns_latest_insert_witness :
  history sample_jhash CtorInit demo_ops = Some demo_table
  /\ htable_find sample_jhash
       (htable_add sample_jhash demo_table (entry_at 16384) key_z 1) key_z 1
     = Some (INIT_HTABLE_ENTRY (entry_at 16384) key_z 1)
  /\ later demo_ops (INIT_HTABLE_ENTRY (entry_at 8192) key_dup 3)
                    (INIT_HTABLE_ENTRY (entry_at 4096) key_dup 3).
Proof.
  destruct (find_returns_latest_insert sample_jhash CtorInit demo_ops
              demo_table demo_history) as (Hadd & Hfind & _).
  split; [exact demo_history|]. split.
  - apply Hadd. vm_compute. reflexivity.
  - destruct (Hfind key_dup 3 (INIT_HTABLE_ENTRY (entry_at 8192) key_dup 3))
      as (_ & _ & Hlast); [vm_compute; reflexivity|].
    apply Hlast.
    + apply list_elem_of_further, list_elem_of_here.
    + vm_compute. reflexivity.
    + simpl. lia.
Defined.

Lemma bloom_gate_is_plain_scan_witness :
  history sample_jhash CtorInit demo_ops = Some demo_table
  /\ htable_find sample_jhash demo_table key_z 1
     = plain_scan sample_jhash demo_table key_z 1
  /\ key_present demo_table key_z 1 = false.
Proof.
  destruct (bloom_gate_is_plain_scan sample_jhash CtorInit demo_ops
              demo_table key_z 1 demo_history) as [Heq Habs].
  split; [exact demo_history|]. split; [exact Heq|].
  apply Habs. vm_compute. reflexivity.
Defined.

Lemma bloom_bit_never_cleared_witness :
  history sample_jhash CtorInit demo_ops = Some demo_table
  /\ key_present demo_table key_x 1 = false
  /\ bloom_test (ht_bitvect demo_table) (key_hash sample_jhash key_x 1) <> 0.
Proof.
  split; [exact demo_history|]. split; [vm_compute; reflexivity|].
  apply (bloom_bit_never_cleared sample_jhash CtorInit
           [OpAdd (entry_at 4096) key_dup 3; OpAdd (entry_at 8192) key_dup 3]
           (entry_at 12288) key_x 1 [OpDelKey key_x 1] demo_table).
  exact demo_history.
Defined.

Lemma count_is_number_of_entries_witness :
  history sample_jhash CtorInit demo_ops = Some demo_table
  /\ ht_count demo_table = Z.of_nat (length (htable_for_each demo_table))
  /\ ht_count (htable_add sample_jhash demo_table (entry_at 16384) key_z 1)
     = ht_count demo_table + 1
  /\ ht_count (snd (htable_del_key sample_jhash demo_table key_dup 3))
     = ht_count demo_table - 1.
Proof.
  destruct (count_is_number_of_entries sample_jhash CtorInit demo_ops
              demo_table demo_history) as (Hc & _ & Hadd & Hdel & _).
  split; [exact demo_history|]. split; [exact Hc|]. split.
  - apply Hadd. vm_compute. reflexivity.
  - apply (Hdel key_dup 3 (INIT_HTABLE_ENTRY (entry_at 8192) key_dup 3)).
    vm_compute. reflexivity.
Defined.

Lemma del_key_of_absent_key_witness :
  key_present demo_table key_z 1 = false
  /\ htable_del_key sample_jhash demo_table key_z 1 = (None, demo_table).
Proof.
  split; [vm_compute; reflexivity|].
  apply (del_key_of_absent_key sample_jhash demo_table key_z 1).
  vm_compute. reflexivity.
Defined.

Lemma del_entry_is_del_by_key_witness :
  history sample_jhash CtorInit demo_ops = Some demo_table
  /\ INIT_HTABLE_ENTRY (entry_at 4096) key_dup 3 ∈ linked demo_table
  /\ e_node <$> fst (htable_del_entry sample_jhash demo_table
                       (INIT_HTABLE_ENTRY (entry_at 4096) key_dup 3))
     = Some 8192
  /\ (exists e,
       fst (htable_del_entry sample_jhash demo_table
              (INIT_HTABLE_ENTRY (entry_at 4096) key_dup 3)) = Some e
       /\ key_match key_dup 3 e = true
       /\ (e_node e = 4096
           \/ later demo_ops e (INIT_HTABLE_ENTRY (entry_at 4096) key_dup 3)))
  /\ (exists e t',
       htable_del_entry sample_jhash demo_table
         (INIT_HTABLE_ENTRY (entry_at 4096) key_dup 3) = (Some e, t')
       /\ (e_node e ∉ e_node <$> linked t')
       /\ ht_count t' = ht_count demo_table - 1).
Proof.
  assert (Hin : INIT_HTABLE_ENTRY (entry_at 4096) key_dup 3 ∈ linked demo_table).
  { apply list_elem_of_further, list_elem_of_here. }
  split; [exact demo_history|]. split; [exact Hin|].
  split; [vm_compute; reflexivity|].
  destruct (del_entry_is_del_by_key sample_jhash)
    as (_ & _ & Hlinked & Hunlink & _).
  split.
  - exact (Hlinked CtorInit demo_ops demo_table
             (INIT_HTABLE_ENTRY (entry_at 4096) key_dup 3) demo_history Hin).
  - destruct (Hunlink CtorInit demo_ops demo_table
                (INIT_HTABLE_ENTRY (entry_at 4096) key_dup 3) demo_history Hin)
      as (e & t' & i & h1 & h2 & Hd & _ & _ & _ & _ & _ & _ & Hgone & _
          & Hcnt & _).
    exists e, t'. split; [exact Hd|]. split; [exact Hgone | exact Hcnt].
Defined.

Lemma init_of_null_table_fails_witness :
  0 <= 3 <= INT_MAX
  /\ fst (htable_init_n (Some blank) 3) = 0
  /\ snd (htable_init_n (Some blank) 3) = construct (CtorInitN 3).
Proof.
  assert (Hr : 0 <= 3 <= INT_MAX) by (vm_compute; split; discriminate).
  destruct init_of_null_table_fails as (_ & _ & _ & Hn & _).
  destruct (Hn blank 3 Hr) as (Hret & Hsame & _).
  split; [exact Hr|]. split; [exact Hret | exact Hsame].
Defined.

Lemma for_each_visits_each_entry_once_witness :
  history sample_jhash CtorInit demo_ops = Some demo_table
  /\ htable_for_each demo_table = linked demo_table
  /\ Z.of_nat (length (htable_for_each demo_table)) = ht_count demo_table
  /\ NoDup (e_node <$> htable_for_each demo_table).
Proof.
  destruct (for_each_visits_each_entry_once sample_jhash CtorInit demo_ops
              demo_table demo_history) as (_ & Hl & _ & Hc & Hnd & _).
  split; [exact demo_history|]. split; [exact Hl|]. split; [exact Hc|].
  exact Hnd.
Defined.

(** ** The scenarios of the specification *)

(** Scenario A: keys "a", "b" and "c" in a table of 16 buckets. *)
Example scenario_a :
  let ops := [ OpAdd (entry_at 4096) (list_byte_of_string "a") 1;
               OpAdd (entry_at 8192) (list_byte_of_string "b") 1;
               OpAdd (entry_at 12288) (list_byte_of_string "c") 1 ] in
  let t := default blank (history sample_jhash CtorInit ops) in
  ht_size t = 16
  /\ e_node <$> htable_find sample_jhash t (list_byte_of_string "b") 1
     = Some 8192
  /\ htable_find sample_jhash t key_z 1 = None.
Proof. vm_compute. repeat split; reflexivity. Qed.

(** Scenario B: two entries with the key "dup". *)
Example scenario_b :
  e_node <$> htable_for_each demo_table = [8192; 4096]
  /\ e_node <$> htable_find sample_jhash demo_table key_dup 3 = Some 8192.
Proof. vm_compute. split; reflexivity. Qed.

(** Scenario C: "x" was inserted and deleted; its bloom bit is still set
    and the lookup answers that it is not there. *)
Example scenario_c :
  bloom_test (ht_bitvect demo_table) (key_hash sample_jhash key_x 1) = 32
  /\ htable_find sample_jhash demo_table key_x 1 = None.
Proof. vm_compute. split; reflexivity. Qed.

(** ** Further properties at work on the example table *)

Lemma bucket_index_within_buckets_witness :
  1 <= ht_size demo_table <= INT_MAX
  /\ 0 <= wrap32 (htable_which_bucket demo_table 1045843514)
       < ht_size demo_table
  /\ wrap32 (htable_which_bucket demo_table 1045843514)
     = 1045843514 mod ht_size demo_table.
Proof.
  assert (Hs : 1 <= ht_size demo_table <= INT_MAX) by (vm_compute; split; discriminate).
  destruct (bucket_index_within_buckets demo_table 1045843514 Hs eq_refl)
    as (Hr & _ & Hm).
  split; [exact Hs|]. split; [exact Hr|].
  apply (Hm 4); [lia | reflexivity].
Defined.

Lemma all_buckets_addressed_iff_power_of_two_witness :
  1 <= ht_size demo_table <= INT_MAX
  /\ exists hash, 0 <= hash < 2 ^ 32 /\ htable_which_bucket demo_table hash = 7.
Proof.
  assert (Hs : 1 <= ht_size demo_table <= INT_MAX) by (vm_compute; split; discriminate).
  split; [exact Hs|].
  apply (proj2 (all_buckets_addressed_iff_power_of_two demo_table Hs)).
  - exists 4. split; [lia | reflexivity].
  - simpl. lia.
Defined.

Lemma fresh_table_is_empty_witness :
  exists t,
    construct (CtorInitN 3) = Some t
    /\ ht_count t = 0
    /\ htable_find sample_jhash t key_dup 3 = None.
Proof.
  eexists. split; [reflexivity|].
  destruct (fresh_table_is_empty sample_jhash (CtorInitN 3) _ eq_refl)
    as (_ & _ & Hc & _ & _ & Hf & _).
  split; [exact Hc | apply Hf].
Defined.

Lemma bucket_count_is_fixed_witness :
  history sample_jhash CtorInit demo_ops = Some demo_table
  /\ ht_size demo_table = HASH_NUM_BUCKETS
  /\ length (ht_bucks demo_table) = Z.to_nat (ht_size demo_table).
Proof.
  split; [exact demo_history|].
  exact (bucket_count_is_fixed sample_jhash CtorInit demo_ops demo_table
           demo_history).
Defined.

Lemma bloom_bits_are_inserted_hashes_witness :
  history sample_jhash CtorInit demo_ops = Some demo_table
  /\ (key_x, 1) ∈ added_keys demo_ops
  /\ bloom_test (ht_bitvect demo_table) (key_hash sample_jhash key_x 1 + 256)
     <> 0.
Proof.
  assert (Hin : (key_x, 1) ∈ added_keys demo_ops).
  { simpl. apply list_elem_of_further, list_elem_of_further,
      list_elem_of_here. }
  split; [exact demo_history|]. split; [exact Hin|].
  apply (bloom_bits_are_inserted_hashes sample_jhash CtorInit demo_ops
           demo_table _ demo_history).
  exists key_x, 1. split; [exact Hin | vm_compute; reflexivity].
Defined.

Lemma bloom_set_sets_one_bit_witness :
  length bloom_init = 32%nat
  /\ bloom_test_bit (bloom_set_bit bloom_init 7) 7 = 128
  /\ bloom_test_bit (bloom_set_bit bloom_init 8) 7 = bloom_test_bit bloom_init 7.
Proof.
  destruct (bloom_set_sets_one_bit bloom_init 7 8 eq_refl)
    as (Hset & _ & Hother & _); [lia | lia |].
  split; [reflexivity|]. split; [exact Hset|].
  apply Hother. lia.
Defined.

Lemma delete_unlinks_returned_entry_witness :
  history sample_jhash CtorInit demo_ops = Some demo_table
  /\ htable_del_key sample_jhash demo_table key_dup 3
     = (Some (INIT_HTABLE_ENTRY (entry_at 8192) key_dup 3),
        snd (htable_del_key sample_jhash demo_table key_dup 3))
  /\ valid_entry (snd (htable_del_key sample_jhash demo_table key_dup 3))
       (INIT_HTABLE_ENTRY (entry_at 8192) key_dup 3) = true.
Proof.
  assert (Hd : htable_del_key sample_jhash demo_table key_dup 3
               = (Some (INIT_HTABLE_ENTRY (entry_at 8192) key_dup 3),
                  snd (htable_del_key sample_jhash demo_table key_dup 3))).
  { vm_compute. reflexivity. }
  split; [exact demo_history|]. split; [exact Hd|].
  exact (proj1 (proj2 (proj2
    (delete_unlinks_returned_entry sample_jhash CtorInit demo_ops demo_table
       key_dup 3 _ _ demo_history Hd)))).
Defined.

Lemma add_keeps_other_lookups_witness :
  history sample_jhash CtorInit demo_ops = Some demo_table
  /\ valid_entry demo_table (entry_at 16384) = true
  /\ htable_find sample_jhash
       (htable_add sample_jhash demo_table (entry_at 16384) key_z 1) key_dup 3
     = htable_find sample_jhash demo_table key_dup 3.
Proof.
  split; [exact demo_history|]. split; [reflexivity|].
  apply (add_keeps_other_lookups sample_jhash CtorInit demo_ops demo_table
           (entry_at 16384) key_z 1 key_dup 3 demo_history eq_refl).
  intros [Hl _]. discriminate.
Defined.

Lemma delete_keeps_other_lookups_witness :
  history sample_jhash CtorInit demo_ops = Some demo_table
  /\ htable_find sample_jhash
       (snd (htable_del_key sample_jhash demo_table key_dup 3)) key_x 1
     = htable_find sample_jhash demo_table key_x 1.
Proof.
  split; [exact demo_history|].
  apply (delete_keeps_other_lookups sample_jhash CtorInit demo_ops demo_table
           key_dup 3 key_x 1 demo_history).
  intros [Hl _]. discriminate.
Defined.

Lemma add_then_delete_restores_witness :
  history sample_jhash CtorInit demo_ops = Some demo_table
  /\ valid_entry demo_table (entry_at 16384) = true
  /\ exists t',
       htable_del_key sample_jhash
         (htable_add sample_jhash demo_table (entry_at 16384) key_dup 3)
         key_dup 3
       = (Some (INIT_HTABLE_ENTRY (entry_at 16384) key_dup 3), t')
       /\ ht_bucks t' = ht_bucks demo_table
       /\ ht_count t' = ht_count demo_table.
Proof.
  split; [exact demo_history|]. split; [reflexivity|].
  destruct (add_then_delete_restores sample_jhash CtorInit demo_ops demo_table
              (entry_at 16384) key_dup 3 demo_history eq_refl)
    as (t' & Hd & Hb & Hc & _).
  exists t'. split; [exact Hd|]. split; [exact Hb | exact Hc].
Defined.

Lemma traversal_after_add_and_delete_witness :
  history sample_jhash CtorInit demo_ops = Some demo_table
  /\ e_node <$> htable_for_each
                  (snd (htable_del_key sample_jhash demo_table key_dup 3))
     = e_node <$> filter (fun x => e_node x <> 8192)
                    (htable_for_each demo_table).
Proof.
  split; [exact demo_history|].
  destruct (traversal_after_add_and_delete sample_jhash CtorInit demo_ops
              demo_table demo_history) as [_ Hdel].
  rewrite (Hdel key_dup 3 (INIT_HTABLE_ENTRY (entry_at 8192) key_dup 3)
             (snd (htable_del_key sample_jhash demo_table key_dup 3))).
  - reflexivity.
  - vm_compute. reflexivity.
Defined.

Lemma for_each_safe_deleting_empties_table_witness :
  history sample_jhash CtorInit demo_ops = Some demo_table
  /\ exists t',
       htable_for_each_safe 17 (delete_visited sample_jhash) demo_table
       = Some (htable_for_each demo_table, t')
       /\ linked t' = [] /\ ht_count t' = 0.
Proof.
  split; [exact demo_history|].
  destruct (for_each_safe_deleting_empties_table sample_jhash CtorInit
              demo_ops demo_table 17 demo_history)
    as (t' & Hrun & _ & Hl & Hc & _).
  - vm_compute. reflexivity.
  - vm_compute. reflexivity.
  - exists t'. split; [exact Hrun|]. split; [exact Hl | exact Hc].
Defined.

Lemma entries_sit_in_their_bucket_witness :
  history sample_jhash CtorInit demo_ops = Some demo_table
  /\ 10 = Z.land (key_hash sample_jhash key_dup 3) (ht_size demo_table - 1).
Proof.
  split; [exact demo_history|].
  destruct (entries_sit_in_their_bucket sample_jhash CtorInit demo_ops
              demo_table demo_history) as (Hplace & _).
  apply (Hplace 10%nat _ (INIT_HTABLE_ENTRY (entry_at 8192) key_dup 3)
           eq_refl).
  apply list_elem_of_here.
Defined.
